(** * Toy-IR-Engine: the inverted index and the TF-IDF ranking of [IREngine.py]

    A shallow embedding of the engine of [src/IREngine.py] and of the record
    of [src/document.py].

    - Python dictionaries are stdpp [gmap]s, Python sets are [gset]s.
    - Term counts and lengths are [nat]; the requested number of results is
      a [Z], because Python accepts a negative one and slices with it.
    - Python floats are read as real numbers ([R]): [log] is [ln], and the
      faults the arithmetic can raise are explicit results.  Rounding is not
      part of this model.
    - An exception ends the call: every operation that can raise returns a
      [result], the sum of the exception and the value. *)

From Stdlib Require Import Reals Lra.
From stdpp Require Import gmap strings list fin_maps sorting.

#[local] Set Warnings "-clear-no-such-hyp".

(** ** Documents ([document.py]) *)

Record Document := mkDocument {
  doc_id : string;
  text : string;
  terms : list string
}.

(** [Document.__str__] returns the raw text. *)
Definition Document__str__ (d : Document) : string := text d.

(** ** Engine state ([IREngine.__init__]) *)

Record IREngine := mkIREngine {
  documents : gmap string Document;
  inverted_index : gmap string (gmap string nat)
}.

Definition IREngine__init__ : IREngine := mkIREngine ∅ ∅.

(** ** Indexing *)

(** One iteration of the loop of [update_inverted_index]: the occurrence of
    [term] in the document [id]. *)
Definition index_term (id : string) (index : gmap string (gmap string nat))
    (term : string) : gmap string (gmap string nat) :=
  let index1 :=
    match index !! term with
    | None => <[term := ∅]> index
    | Some _ => index
    end in
  let postings := default ∅ (index1 !! term) in
  match postings !! id with
  | None => <[term := <[id := 1]> postings]> index1
  | Some tf => <[term := <[id := tf + 1]> postings]> index1
  end.

Definition update_inverted_index (index : gmap string (gmap string nat))
    (document : Document) : gmap string (gmap string nat) :=
  foldl (index_term (doc_id document)) index (terms document).

(** What a call of [add_document] leaves behind: the engine, the returned
    boolean and the lines printed. *)
Record add_outcome := mkOutcome {
  engine_after : IREngine;
  returned : bool;
  printed : list string
}.

Definition duplicate_message (id : string) : string :=
  "Error: " +:+ id +:+ " is already indexed. No action will be taken.".

Definition add_document (self : IREngine) (document : Document) : add_outcome :=
  match documents self !! doc_id document with
  | None =>
      mkOutcome
        (mkIREngine (<[doc_id document := document]> (documents self))
                    (update_inverted_index (inverted_index self) document))
        true []
  | Some _ => mkOutcome self false [duplicate_message (doc_id document)]
  end.

(** The engine states a caller can build: the fresh engine, and any state
    after one more call of [add_document] (a rejected call included). *)
Inductive reachable : IREngine → Prop :=
  | reachable_init : reachable IREngine__init__
  | reachable_add self document :
      reachable self → reachable (engine_after (add_document self document)).

Definition add_documents (self : IREngine) (ds : list Document) : IREngine :=
  foldl (λ st d, engine_after (add_document st d)) self ds.

(** ** Exceptions *)

(** The exceptions the engine can raise, and one more way for a call to
    stop: [NanSimilarity].  On a vector of magnitude zero
    [scipy.spatial.distance.cosine] divides zero by zero in numpy arithmetic,
    which gives nan with a warning and raises nothing.  The real numbers
    have no nan, so the model stops there; sorting on nan keys is not
    modelled. *)
Inductive exception :=
  | KeyError
  | ZeroDivisionError
  | ValueError
  | NanSimilarity.

Definition result (A : Type) : Type := exception + A.

Definition raise {A} (e : exception) : result A := inl e.
Definition ret {A} (a : A) : result A := inr a.
Definition bind {A B} (m : result A) (k : A → result B) : result B :=
  match m with
  | inl e => inl e
  | inr a => k a
  end.

Notation "'let*' x := m 'in' k" := (bind m (λ x, k))
  (at level 10, x name, m at level 100, k at level 200).

(** A [for] loop (or comprehension) that appends one value per element and
    stops at the first exception. *)
Fixpoint for_each {A B} (f : A → result B) (l : list A) : result (list B) :=
  match l with
  | [] => ret []
  | x :: l' =>
      let* y := f x in
      let* ys := for_each f l' in
      ret (y :: ys)
  end.

(** [d[k]] on a dictionary. *)
Definition getitem {V} (d : gmap string V) (k : string) : result V :=
  match d !! k with
  | Some v => ret v
  | None => raise KeyError
  end.

(** ** Float arithmetic, read over the reals *)

Local Open Scope R_scope.

(** [a / b] on floats raises on a zero divisor. *)
Definition float_div (a b : R) : result R :=
  if Req_dec_T b 0 then raise ZeroDivisionError else ret (a / b).

(** [math.log] raises a domain error outside the positive numbers. *)
Definition math_log (x : R) : result R :=
  if Rlt_dec 0 x then ret (ln x) else raise ValueError.

Fixpoint dot (u v : list R) : R :=
  match u, v with
  | x :: u', y :: v' => x * y + dot u' v'
  | _, _ => 0
  end.

Definition norm (u : list R) : R := sqrt (dot u u).

(** [scipy.spatial.distance.cosine u v], [1 - u.v / (|u| |v|)]: vectors of
    different lengths are rejected, a zero magnitude gives nan. *)
Definition spatial_distance_cosine (u v : list R) : result R :=
  if decide (length u = length v) then
    if Req_dec_T (norm u * norm v) 0 then raise NanSimilarity
    else ret (1 - dot u v / (norm u * norm v))
  else raise ValueError.

(** ** Scoring *)

Definition _calculate_term_idf (self : IREngine) (term : string) : result R :=
  let num_of_docs_with_term := size (default ∅ (inverted_index self !! term)) in
  match inverted_index self !! term with
  | Some _ =>
      let* ratio := float_div (INR (size (documents self)))
                              (INR num_of_docs_with_term) in
      let* l := math_log ratio in
      ret (1 + l)
  | None => ret 1
  end.

(** First loop of [calculate_tf_idf_for_query]. *)
Definition count_query_term (query_term_frequencies : gmap string nat)
    (query_term : string) : gmap string nat :=
  match query_term_frequencies !! query_term with
  | None => <[query_term := 1%nat]> query_term_frequencies
  | Some n => <[query_term := (n + 1)%nat]> query_term_frequencies
  end.

Definition calculate_tf_idf_for_query (self : IREngine)
    (query_terms : list string) : result (list R) :=
  let query_term_frequencies := foldl count_query_term ∅ query_terms in
  for_each (λ query_term,
      let* n := getitem query_term_frequencies query_term in
      let* term_tf := float_div (INR n) (INR (length query_terms)) in
      let* term_idf := _calculate_term_idf self query_term in
      ret (term_tf * term_idf))
    query_terms.

(** The dict comprehension [{term: idf(term) for term in query_terms}]. *)
Fixpoint idf_mapping (self : IREngine) (query_terms : list string)
    (acc : gmap string R) : result (gmap string R) :=
  match query_terms with
  | [] => ret acc
  | term :: rest =>
      let* idf := _calculate_term_idf self term in
      idf_mapping self rest (<[term := idf]> acc)
  end.

Definition _get_relevant_doc_ids (self : IREngine) (terms : list string)
    : gset string :=
  foldl (λ relevant_docs term,
           match inverted_index self !! term with
           | Some postings => relevant_docs ∪ dom postings
           | None => relevant_docs
           end)
        ∅ terms.

(** The inner loop of [query_by_terms]: the vector of one document. *)
Definition document_vector (self : IREngine) (term_to_idf_mapping : gmap string R)
    (document : Document) (query_terms : list string) : result (list R) :=
  for_each (λ query_term,
      let* query_tf :=
        match inverted_index self !! query_term with
        | Some postings =>
            float_div (INR (default 0%nat (postings !! doc_id document)))
                      (INR (length (terms document)))
        | None => ret 0
        end in
      let* query_idf := getitem term_to_idf_mapping query_term in
      ret (query_tf * query_idf))
    query_terms.

(** The body of the loop over the relevant ids: one scored pair. *)
Definition score_document (self : IREngine) (query_tf_idf_vector : list R)
    (term_to_idf_mapping : gmap string R) (query_terms : list string)
    (id : string) : result (Document * R) :=
  let* document := getitem (documents self) id in
  let* v := document_vector self term_to_idf_mapping document query_terms in
  let* distance := spatial_distance_cosine query_tf_idf_vector v in
  ret (document, 1 - distance).

(** The list [results] at the end of the loop.  A Python set is iterated in
    an order the language leaves open; the model takes the enumeration
    [elements] of the set. *)
Definition scored_documents (self : IREngine) (query_terms : list string)
    : result (list (Document * R)) :=
  let* query_tf_idf_vector := calculate_tf_idf_for_query self query_terms in
  let* term_to_idf_mapping := idf_mapping self query_terms ∅ in
  let relevant_doc_ids := _get_relevant_doc_ids self query_terms in
  for_each (score_document self query_tf_idf_vector term_to_idf_mapping query_terms)
           (elements relevant_doc_ids).

(** [sorted(results, key=lambda tup: tup[1], reverse=True)]: a stable sort,
    highest key first; elements with equal keys keep their order. *)
Fixpoint insert_by_score (x : Document * R) (l : list (Document * R))
    : list (Document * R) :=
  match l with
  | [] => [x]
  | y :: l' =>
      if Rlt_dec (snd x) (snd y) then y :: insert_by_score x l'
      else x :: y :: l'
  end.

Definition sorted_by_score (l : list (Document * R)) : list (Document * R) :=
  foldr insert_by_score [] l.

Local Close Scope R_scope.

(** The slice [l[:n]]: a negative [n] counts from the end. *)
Definition slice_to {A} (n : Z) (l : list A) : list A :=
  if (n <? 0)%Z then take (Z.to_nat (Z.of_nat (length l) + n)) l
  else take (Z.to_nat n) l.

(** The values a query hands back: [query_by_terms] applies [str] to each
    document, so its list holds [str] objects. *)
Inductive pyobject :=
  | PyStr (s : string)
  | PyDocument (d : Document).

(** [top_results] of [query_by_terms], before the conversion to strings, and
    the clamped [num_of_results]. *)
Definition clamp_num_of_results (num_of_results : Z) (len : nat) : Z :=
  if (Z.of_nat len <? num_of_results)%Z then Z.of_nat len else num_of_results.

Definition top_results (results : list (Document * R)) (num_of_results : Z)
    : list (Document * R) :=
  slice_to (clamp_num_of_results num_of_results (length results))
           (sorted_by_score results).

(** [top_results[:num_of_results]], the pairs behind the returned strings:
    the list is sliced a second time. *)
Definition returned_results (results : list (Document * R)) (num_of_results : Z)
    : list (Document * R) :=
  slice_to (clamp_num_of_results num_of_results (length results))
           (top_results results num_of_results).

Definition query_by_terms (self : IREngine) (query_terms : list string)
    (num_of_results : Z) : result (list pyobject) :=
  let* results := scored_documents self query_terms in
  ret (map (λ top_result, PyStr (Document__str__ (fst top_result)))
           (returned_results results num_of_results)).

(** ** The tokenizers ([tokenize_utils.py])

    They rest on nltk's stop word list and stemmer, which are not part of
    the repository: the engine is stated over any pair of tokenizers. *)
Section Tokenizers.
Variable tokenize : string → list string.
Variable smart_tokenize : string → list string.

(** [Document(doc_id, text)] *)
Definition Document__init__ (id txt : string) : Document :=
  mkDocument id txt (tokenize txt).

Definition free_text_query (self : IREngine) (query_text : string)
    (num_of_results : Z) (smart_tokenizer : bool) : result (list pyobject) :=
  let query_terms :=
    if smart_tokenizer then smart_tokenize query_text
    else tokenize query_text in
  query_by_terms self query_terms num_of_results.
End Tokenizers.

(** ** Vocabulary of the statements *)

(** Number of occurrences of [t] in a term sequence. *)
Definition occurrences (t : string) (l : list string) : nat :=
  length (filter (λ x, x = t) l).

(** The count stored for the pair (term, document id), if any. *)
Definition entry (index : gmap string (gmap string nat)) (t id : string)
    : option nat :=
  index !! t ≫= λ postings, postings !! id.

(** [postings(term)]: the empty mapping for an unknown term. *)
Definition postings (self : IREngine) (t : string) : gmap string nat :=
  default ∅ (inverted_index self !! t).

(** The count the index must hold for a document and a term. *)
Definition expected_entry (t : string) (d : option Document) : option nat :=
  match d with
  | Some d => if decide (occurrences t (terms d) = 0) then None
              else Some (occurrences t (terms d))
  | None => None
  end.

(** [document_frequency(t)]: the number of indexed documents that contain
    [t] at least once. *)
Definition document_frequency (self : IREngine) (t : string) : nat :=
  size (filter (λ kv, t ∈ terms kv.2) (documents self)).

(** The weights of the ranking, as the formulas of the scoring read:
    IDF, TF-IDF of a query term, TF-IDF of a document for a query term, and
    the cosine similarity of a document to a query. *)
Definition idf_value (self : IREngine) (t : string) : R :=
  match document_frequency self t with
  | O => 1
  | S _ => 1 + ln (INR (size (documents self)) / INR (document_frequency self t))
  end.

Definition query_weight (self : IREngine) (q : list string) (t : string) : R :=
  INR (occurrences t q) / INR (length q) * idf_value self t.

Definition document_weight (self : IREngine) (d : Document) (t : string) : R :=
  INR (occurrences t (terms d)) / INR (length (terms d)) * idf_value self t.

Definition cosine_similarity (self : IREngine) (q : list string) (d : Document)
    : R :=
  let u := map (query_weight self q) q in
  let v := map (document_weight self d) q in
  dot u v / (norm u * norm v).

(** Highest score first: every pair scores at least as much as each pair
    after it. *)
Definition descending (l : list (Document * R)) : Prop :=
  StronglySorted (λ a b, (snd b <= snd a)%R) l.


(** ** Sample corpora

    The corpus of the specification's scenario, the same with a third
    document, a document without terms, and an engine value that no sequence
    of [add_document] calls builds: its only document has no term and is
    listed in a postings entry all the same. *)
Definition doc1 : Document := mkDocument "d1" "cat dog" ["cat"; "dog"].
Definition doc2 : Document := mkDocument "d2" "dog dog fish" ["dog"; "dog"; "fish"].
Definition doc3 : Document := mkDocument "d3" "dog" ["dog"].
Definition doc_without_terms : Document := mkDocument "e" "the" [].

Definition single_corpus : IREngine := add_documents IREngine__init__ [doc1].
Definition corpus : IREngine := add_documents IREngine__init__ [doc1; doc2].
Definition corpus3 : IREngine := add_documents IREngine__init__ [doc1; doc2; doc3].

Definition unbuilt_engine : IREngine :=
  mkIREngine {[ "d" := mkDocument "d" "" [] ]}
             {[ "x" := {[ "d" := 1%nat ]} ]}.

Record index_consistent (st : IREngine) : Prop := {
  ic_key : ∀ id d, documents st !! id = Some d → doc_id d = id;
  ic_entry : ∀ t id, entry (inverted_index st) t id
                     = expected_entry t (documents st !! id);
  ic_nonempty : ∀ t p, inverted_index st !! t = Some p → p ≠ ∅
}.

(** ** Facts on [occurrences] *)

Lemma occurrences_nil t : occurrences t [] = 0.
Proof. reflexivity. Qed.

Lemma occurrences_cons t x l :
  occurrences t (x :: l) = (if decide (x = t) then 1 else 0) + occurrences t l.
Proof.
  unfold occurrences. rewrite filter_cons.
  destruct (decide (x = t)); reflexivity.
Qed.

Lemma occurrences_snoc t l x :
  occurrences t (l ++ [x]) = occurrences t l + (if decide (x = t) then 1 else 0).
Proof.
  unfold occurrences. rewrite filter_app, length_app.
  rewrite filter_cons, filter_nil. destruct (decide (x = t)); reflexivity.
Qed.

Lemma occurrences_pos t l : t ∈ l ↔ occurrences t l ≠ 0.
Proof.
  induction l as [|x l IH].
  - rewrite occurrences_nil. split; [intros H; inversion H | done].
  - rewrite occurrences_cons, elem_of_cons.
    destruct (decide (x = t)) as [->|Hne]; [split; [lia | auto] |].
    simpl. rewrite <- IH. split; [intros [?|?]; congruence | auto].
Qed.

(** ** One step and one pass of [update_inverted_index] *)

Lemma index_term_lookup id index term :
  index_term id index term !! term
  = Some (<[id := default 0 (entry index term id) + 1]>
            (default ∅ (index !! term))).
Proof.
  unfold index_term, entry.
  destruct (index !! term) as [p|] eqn:Hp; simpl.
  - rewrite Hp. simpl. destruct (p !! id) as [n|] eqn:Hn; simpl.
    + by rewrite lookup_insert_eq.
    + by rewrite lookup_insert_eq.
  - rewrite lookup_insert_eq. simpl. rewrite lookup_empty.
    rewrite lookup_insert_eq. done.
Qed.

Lemma index_term_lookup_ne id index term t :
  t ≠ term → index_term id index term !! t = index !! t.
Proof.
  intros Hne. unfold index_term.
  destruct (index !! term) as [p|] eqn:Hp; simpl.
  - rewrite Hp. simpl. destruct (p !! id); by rewrite lookup_insert_ne.
  - rewrite lookup_insert_eq. simpl. rewrite lookup_empty.
    rewrite !lookup_insert_ne by done. done.
Qed.

Lemma index_term_entry id index term t j :
  entry (index_term id index term) t j
  = if decide (t = term ∧ j = id)
    then Some (default 0 (entry index t j) + 1)
    else entry index t j.
Proof.
  destruct (decide (t = term)) as [->|Hne].
  - unfold entry at 1. rewrite index_term_lookup. simpl.
    destruct (decide (j = id)) as [->|Hj].
    + rewrite decide_True by done. by rewrite lookup_insert_eq.
    + rewrite decide_False by (intros [_ ?]; done).
      rewrite lookup_insert_ne by done. unfold entry.
      destruct (index !! term); simpl; [done | by rewrite lookup_empty].
  - rewrite decide_False by (intros [? _]; done).
    unfold entry. by rewrite index_term_lookup_ne.
Qed.

Lemma index_term_dom id index term :
  dom (index_term id index term) = {[term]} ∪ dom index.
Proof.
  apply set_eq. intros t. rewrite elem_of_union, elem_of_singleton, !elem_of_dom.
  destruct (decide (t = term)) as [->|Hne].
  - rewrite index_term_lookup. split; [auto | eauto].
  - rewrite index_term_lookup_ne by done. split; [auto | intros [?|?]; done].
Qed.

Lemma index_term_nonempty id index term :
  (∀ t p, index !! t = Some p → p ≠ ∅) →
  ∀ t p, index_term id index term !! t = Some p → p ≠ ∅.
Proof.
  intros Hne t p. destruct (decide (t = term)) as [->|Ht].
  - rewrite index_term_lookup. intros [= <-]. apply insert_non_empty.
  - rewrite index_term_lookup_ne by done. apply Hne.
Qed.

Lemma update_inverted_index_entry index d t j :
  entry (update_inverted_index index d) t j
  = if decide (j = doc_id d ∧ occurrences t (terms d) ≠ 0)
    then Some (default 0 (entry index t j) + occurrences t (terms d))
    else entry index t j.
Proof.
  unfold update_inverted_index.
  induction (terms d) as [|x l IH] using rev_ind.
  - simpl. rewrite decide_False; [done | rewrite occurrences_nil; intros [_ ?]; done].
  - rewrite foldl_app. simpl. rewrite index_term_entry, IH, occurrences_snoc.
    destruct (decide (x = t)) as [->|Hx].
    + destruct (decide (j = doc_id d)) as [->|Hj].
      * rewrite (decide_True (P := t = t ∧ _)) by done.
        rewrite (decide_True (P := _ ∧ occurrences t l + 1 ≠ 0)) by (split; [done | lia]).
        f_equal. destruct (decide (doc_id d = doc_id d ∧ occurrences t l ≠ 0)) as [_|Hn].
        -- simpl. lia.
        -- assert (occurrences t l = 0) as -> by (destruct (occurrences t l); [done | exfalso; apply Hn; done]).
           lia.
      * rewrite !decide_False by (intros [? ?]; done). done.
    + rewrite (decide_False (P := t = x ∧ _)) by (intros [? _]; done).
      rewrite Nat.add_0_r. done.
Qed.

Lemma update_inverted_index_dom index d :
  dom (update_inverted_index index d) = list_to_set (terms d) ∪ dom index.
Proof.
  unfold update_inverted_index.
  induction (terms d) as [|x l IH] using rev_ind.
  - simpl. set_solver.
  - rewrite foldl_app. simpl. rewrite index_term_dom, IH, list_to_set_app_L.
    set_solver.
Qed.

Lemma update_inverted_index_nonempty index d :
  (∀ t p, index !! t = Some p → p ≠ ∅) →
  ∀ t p, update_inverted_index index d !! t = Some p → p ≠ ∅.
Proof.
  unfold update_inverted_index.
  induction (terms d) as [|x l IH] using rev_ind; intros Hne.
  - done.
  - rewrite foldl_app. simpl. apply index_term_nonempty. by apply IH.
Qed.

(** ** The index is consistent with the document store in every reachable state *)

Lemma add_document_fresh self d :
  documents self !! doc_id d = None →
  add_document self d
  = mkOutcome (mkIREngine (<[doc_id d := d]> (documents self))
                          (update_inverted_index (inverted_index self) d))
              true [].
Proof. intros H. unfold add_document. by rewrite H. Qed.

Lemma add_document_duplicate self d :
  is_Some (documents self !! doc_id d) →
  add_document self d = mkOutcome self false [duplicate_message (doc_id d)].
Proof. intros [x H]. unfold add_document. by rewrite H. Qed.

Lemma index_consistent_init : index_consistent IREngine__init__.
Proof.
  split; simpl.
  - intros id d. by rewrite lookup_empty.
  - intros t id. unfold entry. by rewrite !lookup_empty.
  - intros t p. by rewrite lookup_empty.
Qed.

Lemma index_consistent_add self d :
  index_consistent self → index_consistent (engine_after (add_document self d)).
Proof.
  intros [Hkey Hentry Hne].
  destruct (documents self !! doc_id d) as [d0|] eqn:Hd.
  - rewrite add_document_duplicate by eauto. by split.
  - rewrite add_document_fresh by done. split; simpl.
    + intros id d'. rewrite lookup_insert. case_decide; [naive_solver | apply Hkey].
    + intros t id. rewrite update_inverted_index_entry, Hentry.
      rewrite lookup_insert.
      destruct (decide (doc_id d = id)) as [<-|Hid].
      * rewrite Hd. simpl.
        destruct (decide (occurrences t (terms d) = 0)) as [H0|H0].
        -- rewrite decide_False by (intros [_ ?]; done). done.
        -- rewrite decide_True by done. done.
      * rewrite decide_False by (intros [? _]; done). done.
    + by apply update_inverted_index_nonempty.
Qed.

Lemma reachable_consistent st : reachable st → index_consistent st.
Proof.
  induction 1; [apply index_consistent_init | by apply index_consistent_add].
Qed.

Lemma add_documents_reachable st ds : reachable st → reachable (add_documents st ds).
Proof.
  revert st. induction ds as [|d ds IH]; intros st Hst; [done |].
  simpl. apply IH. by constructor.
Qed.

Lemma add_document_keeps self d id x :
  documents self !! id = Some x →
  documents (engine_after (add_document self d)) !! id = Some x.
Proof.
  intros Hx. destruct (documents self !! doc_id d) as [d0|] eqn:Hd.
  - by rewrite add_document_duplicate by eauto.
  - rewrite add_document_fresh by done. simpl.
    rewrite lookup_insert_ne; [done | congruence].
Qed.

Lemma add_documents_keeps self ds id x :
  documents self !! id = Some x → documents (add_documents self ds) !! id = Some x.
Proof.
  revert self. induction ds as [|d ds IH]; intros self Hx; [done |].
  simpl. apply IH. by apply add_document_keeps.
Qed.

(** ** Postings of a consistent index *)

Lemma entry_postings st t id : entry (inverted_index st) t id = postings st t !! id.
Proof.
  unfold entry, postings. destruct (inverted_index st !! t); simpl; [done |].
  by rewrite lookup_empty.
Qed.

Lemma postings_consistent st t id :
  index_consistent st →
  postings st t !! id = expected_entry t (documents st !! id).
Proof. intros Hc. rewrite <- entry_postings. apply (ic_entry _ Hc). Qed.

Lemma expected_entry_Some t od n :
  expected_entry t od = Some n ↔
  ∃ d, od = Some d ∧ t ∈ terms d ∧ n = occurrences t (terms d).
Proof.
  unfold expected_entry. destruct od as [d|].
  - destruct (decide (occurrences t (terms d) = 0)) as [H0|H0].
    + split; [done |]. intros (d' & [= <-] & Hin & _).
      by apply occurrences_pos in Hin.
    + split.
      * intros [= <-]. exists d. by rewrite occurrences_pos.
      * intros (d' & [= <-] & _ & ->). done.
  - split; [done | intros (d & ? & _); done].
Qed.

Lemma elem_of_dom_postings st t id :
  index_consistent st →
  id ∈ dom (postings st t) ↔ ∃ d, documents st !! id = Some d ∧ t ∈ terms d.
Proof.
  intros Hc. rewrite elem_of_dom, postings_consistent by done. split.
  - intros [n Hn]. apply expected_entry_Some in Hn as (d & ? & ? & _). eauto.
  - intros (d & Hd & Hin). exists (occurrences t (terms d)).
    apply expected_entry_Some. eauto.
Qed.

Lemma postings_lookup st t p :
  inverted_index st !! t = Some p → postings st t = p.
Proof. intros H. unfold postings. by rewrite H. Qed.

Lemma postings_unknown st t :
  inverted_index st !! t = None → postings st t = ∅.
Proof. intros H. unfold postings. by rewrite H. Qed.

Lemma elem_of_dom_index st t :
  index_consistent st →
  t ∈ dom (inverted_index st) ↔ ∃ id d, documents st !! id = Some d ∧ t ∈ terms d.
Proof.
  intros Hc. rewrite elem_of_dom. split.
  - intros [p Hp]. pose proof (ic_nonempty _ Hc _ _ Hp) as Hne.
    apply map_choose in Hne as (id & n & Hn).
    assert (id ∈ dom (postings st t)) as Hid.
    { rewrite (postings_lookup _ _ _ Hp). apply elem_of_dom. eauto. }
    apply elem_of_dom_postings in Hid; [|done]. eauto.
  - intros (id & d & Hd & Hin).
    assert (id ∈ dom (postings st t)) as Hid by (apply elem_of_dom_postings; eauto).
    destruct (inverted_index st !! t) as [p|] eqn:Hp; [eauto |].
    rewrite (postings_unknown _ _ Hp), dom_empty_L in Hid. set_solver.
Qed.

Lemma size_postings st t :
  index_consistent st → size (postings st t) = document_frequency st t.
Proof.
  intros Hc. unfold document_frequency. rewrite <- !size_dom. f_equal.
  symmetry. apply dom_filter_L. intros id.
  rewrite elem_of_dom_postings by done. simpl. done.
Qed.

Lemma postings_subset_documents st t :
  index_consistent st → dom (postings st t) ⊆ dom (documents st).
Proof.
  intros Hc id Hid. apply elem_of_dom_postings in Hid as (d & Hd & _); [|done].
  apply elem_of_dom. eauto.
Qed.

(** ** Candidate documents *)

Lemma elem_of_relevant_doc_ids st q id :
  id ∈ _get_relevant_doc_ids st q ↔ ∃ t, t ∈ q ∧ id ∈ dom (postings st t).
Proof.
  unfold _get_relevant_doc_ids.
  assert (∀ acc : gset string,
    id ∈ foldl (λ relevant_docs term,
                 match inverted_index st !! term with
                 | Some p => relevant_docs ∪ dom p
                 | None => relevant_docs
                 end) acc q
    ↔ id ∈ acc ∨ ∃ t, t ∈ q ∧ id ∈ dom (postings st t)) as Hgen.
  { induction q as [|x q IH]; intros acc; simpl.
    - split; [auto | intros [?|(t & Ht & _)]; [done | inversion Ht]].
    - rewrite IH.
      destruct (inverted_index st !! x) as [p|] eqn:Hp.
      + rewrite elem_of_union. split.
        * intros [[?|Hid]|(t & Ht & Hid)]; [auto | |].
          -- right. exists x. split; [left |]. by rewrite (postings_lookup _ _ _ Hp).
          -- right. exists t. split; [by right | done].
        * intros [?|(t & Ht & Hid)]; [auto |].
          apply elem_of_cons in Ht as [->|Ht].
          -- rewrite (postings_lookup _ _ _ Hp) in Hid. auto.
          -- right. eauto.
      + split.
        * intros [?|(t & Ht & Hid)]; [auto |]. right. exists t. split; [by right | done].
        * intros [?|(t & Ht & Hid)]; [auto |].
          apply elem_of_cons in Ht as [->|Ht].
          -- rewrite (postings_unknown _ _ Hp), dom_empty_L in Hid. set_solver.
          -- right. eauto. }
  rewrite Hgen. set_solver.
Qed.

Lemma relevant_doc_ids_documents st q id :
  index_consistent st →
  id ∈ _get_relevant_doc_ids st q ↔
  ∃ d t, documents st !! id = Some d ∧ t ∈ q ∧ t ∈ terms d.
Proof.
  intros Hc. rewrite elem_of_relevant_doc_ids. split.
  - intros (t & Ht & Hid). apply elem_of_dom_postings in Hid as (d & ? & ?); eauto.
  - intros (d & t & Hd & Ht & Hin). exists t. split; [done |].
    apply elem_of_dom_postings; eauto.
Qed.

(** ** Exceptions and loops *)

Lemma bind_ret {A B} (m : result A) (k : A → result B) b :
  bind m k = ret b ↔ ∃ a, m = ret a ∧ k a = ret b.
Proof.
  destruct m as [e|a]; simpl.
  - split; [done | intros (a & ? & _); done].
  - split; [eauto | intros (a' & [= <-] & ?); done].
Qed.

Lemma for_each_ret {A B} (f : A → result B) l ys :
  for_each f l = ret ys ↔ Forall2 (λ x y, f x = ret y) l ys.
Proof.
  revert ys. induction l as [|x l IH]; intros ys; simpl.
  - split; [intros [= <-]; constructor | intros H; by inversion H].
  - rewrite bind_ret. split.
    + intros (y & Hy & H). apply bind_ret in H as (ys' & Hys & [= <-]).
      constructor; [done | by apply IH].
    + intros H. inversion H as [|? y ? ys' Hy Hys]; subst.
      exists y. split; [done |]. apply bind_ret. exists ys'.
      split; [by apply IH | done].
Qed.

Lemma for_each_map {A B} (f : A → result B) (g : A → B) l :
  (∀ x, x ∈ l → f x = ret (g x)) → for_each f l = ret (map g l).
Proof.
  intros H. apply for_each_ret. induction l as [|x l IH]; simpl; constructor.
  - apply H. by left.
  - apply IH. intros y Hy. apply H. by right.
Qed.

Lemma for_each_total {A B} (f : A → result B) l :
  (∀ x, x ∈ l → ∃ y, f x = ret y) → ∃ ys, for_each f l = ret ys.
Proof.
  induction l as [|x l IH]; intros H; simpl.
  - by eexists.
  - destruct (H x) as [y Hy]; [by left |].
    destruct IH as [ys Hys]; [intros z Hz; apply H; by right |].
    exists (y :: ys). rewrite Hy, Hys. done.
Qed.

(** ** Real-number facts: dot products and norms *)

Section Vectors.
Local Open Scope R_scope.

Lemma dot_self_nonneg u : 0 <= dot u u.
Proof.
  induction u as [|x u IH]; simpl; [lra |].
  pose proof (Rle_0_sqr x) as Hx. unfold Rsqr in Hx. lra.
Qed.

Lemma dot_self_pos u x : x ∈ u → x ≠ 0 → 0 < dot u u.
Proof.
  induction u as [|y u IH]; intros Hin Hx; [inversion Hin |].
  simpl. pose proof (dot_self_nonneg u) as Hu.
  apply elem_of_cons in Hin as [<-|Hin].
  - pose proof (Rsqr_pos_lt x Hx) as Hp. unfold Rsqr in Hp. lra.
  - pose proof (Rle_0_sqr y) as Hy. unfold Rsqr in Hy.
    specialize (IH Hin Hx). lra.
Qed.

Lemma dot_nonneg u v :
  Forall (λ x, 0 <= x) u → Forall (λ x, 0 <= x) v → 0 <= dot u v.
Proof.
  intros Hu. revert v. induction Hu as [|x u Hx Hu IH]; intros v Hv; simpl; [lra |].
  destruct Hv as [|y v Hy Hv]; [lra |].
  pose proof (Rmult_le_pos x y Hx Hy). specialize (IH v Hv). lra.
Qed.

Lemma two_products_le (a b c x y : R) :
  0 <= a → 0 <= c → b * b <= a * c →
  2 * b * (x * y) <= a * (y * y) + c * (x * x).
Proof.
  intros Ha Hc Hb.
  pose proof (Rle_0_sqr x) as Hx. pose proof (Rle_0_sqr y) as Hy.
  unfold Rsqr in Hx, Hy.
  apply Rsqr_incr_0_var.
  - unfold Rsqr.
    pose proof (Rle_0_sqr (a * (y * y) - c * (x * x))) as Hd. unfold Rsqr in Hd.
    assert (0 <= (a * c - b * b) * ((x * x) * (y * y))) as He.
    { apply Rmult_le_pos; [lra | by apply Rmult_le_pos]. }
    assert ((a * (y * y) + c * (x * x)) * (a * (y * y) + c * (x * x))
            - 2 * b * (x * y) * (2 * b * (x * y))
            = (a * (y * y) - c * (x * x)) * (a * (y * y) - c * (x * x))
              + 4 * ((a * c - b * b) * ((x * x) * (y * y)))) as Heq by ring.
    lra.
  - pose proof (Rmult_le_pos _ _ Ha Hy). pose proof (Rmult_le_pos _ _ Hc Hx). lra.
Qed.

Lemma cauchy_schwarz u v : dot u v * dot u v <= dot u u * dot v v.
Proof.
  revert v. induction u as [|x u IH]; intros v.
  - simpl. lra.
  - destruct v as [|y v]; [simpl; lra |]. simpl.
    pose proof (two_products_le _ _ _ x y (dot_self_nonneg u) (dot_self_nonneg v) (IH v)) as H2.
    specialize (IH v).
    assert ((x * x + dot u u) * (y * y + dot v v)
            - (x * y + dot u v) * (x * y + dot u v)
            = (dot u u * dot v v - dot u v * dot u v)
              + (dot u u * (y * y) + dot v v * (x * x) - 2 * dot u v * (x * y)))
      as Heq by ring.
    lra.
Qed.

Lemma norm_nonneg u : 0 <= norm u.
Proof. apply sqrt_pos. Qed.

Lemma norm_pos u x : x ∈ u → x ≠ 0 → 0 < norm u.
Proof. intros Hin Hx. apply sqrt_lt_R0. by eapply dot_self_pos. Qed.

Lemma dot_le_norms u v : dot u v <= norm u * norm v.
Proof.
  unfold norm.
  rewrite <- sqrt_mult by apply dot_self_nonneg.
  destruct (Rle_dec 0 (dot u v)) as [Hpos|Hneg].
  - rewrite <- (sqrt_square (dot u v)) at 1 by done.
    apply sqrt_le_1_alt, cauchy_schwarz.
  - pose proof (sqrt_pos (dot u u * dot v v)). lra.
Qed.

Lemma ln_nonneg x : 1 <= x → 0 <= ln x.
Proof.
  intros [Hlt|<-]; [| rewrite ln_1; lra].
  rewrite <- ln_1. left. apply ln_increasing; lra.
Qed.
End Vectors.

(** ** IDF on a consistent index *)

Section Idf.
Local Open Scope R_scope.
Variable st : IREngine.
Hypothesis Hc : index_consistent st.

Lemma document_frequency_le t :
  (document_frequency st t ≤ size (documents st))%nat.
Proof.
  rewrite <- size_postings by done. rewrite <- !size_dom.
  apply subseteq_size, postings_subset_documents, Hc.
Qed.

Lemma document_frequency_known t p :
  inverted_index st !! t = Some p →
  size p = document_frequency st t ∧ document_frequency st t ≠ 0%nat.
Proof.
  intros Hp. rewrite <- size_postings, (postings_lookup _ _ _ Hp) by done.
  split; [done |]. rewrite map_size_empty_iff. by eapply ic_nonempty.
Qed.

Lemma document_frequency_unknown t :
  inverted_index st !! t = None → document_frequency st t = 0%nat.
Proof.
  intros Hp. rewrite <- size_postings, (postings_unknown _ _ Hp) by done.
  apply map_size_empty.
Qed.

Lemma idf_ratio_ge_1 t :
  document_frequency st t ≠ 0%nat →
  1 <= INR (size (documents st)) / INR (document_frequency st t).
Proof.
  intros Hdf. pose proof (document_frequency_le t) as Hle.
  apply le_INR in Hle.
  assert (0 < INR (document_frequency st t)) as Hpos by (apply lt_0_INR; lia).
  apply (Rmult_le_reg_r (INR (document_frequency st t))); [done |].
  unfold Rdiv. rewrite Rmult_assoc, Rinv_l by lra. lra.
Qed.

Lemma calculate_term_idf_value t : _calculate_term_idf st t = ret (idf_value st t).
Proof.
  unfold _calculate_term_idf, idf_value.
  destruct (inverted_index st !! t) as [p|] eqn:Hp; simpl.
  - destruct (document_frequency_known t p Hp) as [-> Hdf].
    pose proof (idf_ratio_ge_1 t Hdf) as Hr.
    unfold float_div. destruct (Req_dec_T _ 0) as [H0|_].
    { apply not_0_INR in Hdf. done. }
    simpl. unfold math_log. destruct (Rlt_dec 0 _) as [_|Hn]; [| lra].
    simpl. destruct (document_frequency st t); [done | done].
  - by rewrite (document_frequency_unknown t Hp).
Qed.

Lemma idf_value_ge_1 t : 1 <= idf_value st t.
Proof.
  unfold idf_value. destruct (document_frequency st t) eqn:Hdf; [lra |].
  rewrite <- Hdf. pose proof (ln_nonneg _ (idf_ratio_ge_1 t ltac:(lia))). lra.
Qed.

Lemma idf_mapping_total q acc :
  ∃ m, idf_mapping st q acc = ret m ∧
       ∀ t, m !! t = if decide (t ∈ q) then Some (idf_value st t) else acc !! t.
Proof.
  revert acc. induction q as [|x q IH]; intros acc; cbn [idf_mapping].
  - exists acc. split; [done |]. intros t. rewrite decide_False; [done | inversion 1].
  - rewrite calculate_term_idf_value. cbn [bind ret].
    destruct (IH (<[x := idf_value st x]> acc)) as (m & Hm & Hlook).
    exists m. split; [done |]. intros t. rewrite Hlook.
    destruct (decide (t ∈ q)) as [Hin|Hnin].
    + rewrite decide_True; [done | by right].
    + rewrite lookup_insert. destruct (decide (x = t)) as [->|Hne].
      * rewrite decide_True; [done | by left].
      * rewrite decide_False; [done |]. intros [?|?]%elem_of_cons; done.
Qed.
End Idf.

Lemma for_each_spec {A B} (f : A → result B) (P : A → B → Prop) l :
  (∀ x, x ∈ l → ∃ y, f x = ret y ∧ P x y) →
  ∃ ys, for_each f l = ret ys ∧ Forall2 P l ys.
Proof.
  induction l as [|x l IH]; intros H; cbn [for_each].
  - exists []. split; [done | constructor].
  - destruct (H x) as (y & Hy & HP); [by left |].
    destruct IH as (ys & Hys & HF); [intros z Hz; apply H; by right |].
    exists (y :: ys). rewrite Hy, Hys. split; [done | by constructor].
Qed.

(** ** The query's own term counts *)

Lemma count_query_term_lookup m x t :
  count_query_term m x !! t
  = if decide (t = x) then Some (default 0 (m !! t) + 1) else m !! t.
Proof.
  unfold count_query_term. destruct (decide (t = x)) as [->|Hne].
  - destruct (m !! x) as [n|] eqn:Hn; by rewrite lookup_insert_eq.
  - destruct (m !! x) as [n|] eqn:Hn; by rewrite lookup_insert_ne.
Qed.

Lemma query_term_frequencies_lookup q m t :
  foldl count_query_term m q !! t
  = if decide (occurrences t q = 0) then m !! t
    else Some (default 0 (m !! t) + occurrences t q).
Proof.
  revert m. induction q as [|x q IH]; intros m; [done |].
  cbn [foldl]. rewrite IH, count_query_term_lookup, occurrences_cons.
  destruct (decide (t = x)) as [->|Hne].
  - rewrite (decide_True (P := x = x)) by done.
    rewrite (decide_False (P := 1 + _ = 0)) by lia.
    case_decide as H0; simpl; f_equal; lia.
  - rewrite (decide_False (P := x = t)) by done. done.
Qed.

(** ** Vectors of the query and of a candidate document *)

Section Scoring.
Local Open Scope R_scope.
Variable st : IREngine.
Hypothesis Hc : index_consistent st.

Lemma length_pos_INR {A} (l : list A) x : x ∈ l → 0 < INR (length l).
Proof.
  intros Hin. apply lt_0_INR. destruct l; [inversion Hin | simpl; lia].
Qed.

Lemma occurrences_pos_INR t l : t ∈ l → 0 < INR (occurrences t l).
Proof. intros Hin. apply lt_0_INR. apply occurrences_pos in Hin. lia. Qed.

Lemma query_weight_pos q t : t ∈ q → 0 < query_weight st q t.
Proof.
  intros Hin. unfold query_weight.
  pose proof (idf_value_ge_1 st Hc t).
  apply Rmult_lt_0_compat; [| lra].
  apply Rdiv_lt_0_compat; [by apply occurrences_pos_INR | by eapply length_pos_INR].
Qed.

Lemma document_weight_pos d t : t ∈ terms d → 0 < document_weight st d t.
Proof.
  intros Hin. unfold document_weight.
  pose proof (idf_value_ge_1 st Hc t).
  apply Rmult_lt_0_compat; [| lra].
  apply Rdiv_lt_0_compat; [by apply occurrences_pos_INR | by eapply length_pos_INR].
Qed.

Lemma document_weight_nonneg d t : 0 <= document_weight st d t.
Proof.
  destruct (decide (t ∈ terms d)) as [Hin|Hnin].
  - left. by apply document_weight_pos.
  - unfold document_weight.
    assert (occurrences t (terms d) = 0%nat) as ->.
    { destruct (occurrences t (terms d)) eqn:Ho; [done |].
      exfalso. apply Hnin, occurrences_pos. lia. }
    simpl. unfold Rdiv. rewrite !Rmult_0_l. lra.
Qed.

Lemma calculate_tf_idf_for_query_value q :
  calculate_tf_idf_for_query st q = ret (map (query_weight st q) q).
Proof.
  unfold calculate_tf_idf_for_query. apply for_each_map. intros x Hx.
  unfold getitem. rewrite query_term_frequencies_lookup, lookup_empty.
  rewrite decide_False by (by apply occurrences_pos).
  cbn [bind ret default]. unfold float_div.
  destruct (Req_dec_T _ 0) as [H0|_].
  { pose proof (length_pos_INR q x Hx). lra. }
  cbn [bind ret]. rewrite calculate_term_idf_value by done. done.
Qed.

Lemma document_vector_value m d q :
  documents st !! doc_id d = Some d →
  terms d ≠ [] →
  (∀ t, t ∈ q → m !! t = Some (idf_value st t)) →
  document_vector st m d q = ret (map (document_weight st d) q).
Proof.
  intros Hd Hne Hm. unfold document_vector. apply for_each_map. intros x Hx.
  assert (default 0%nat (postings st x !! doc_id d) = occurrences x (terms d)) as Hocc.
  { rewrite postings_consistent, Hd by done. simpl. by case_decide as H0. }
  unfold getitem. rewrite (Hm x Hx). unfold document_weight.
  destruct (inverted_index st !! x) as [p|] eqn:Hp.
  - rewrite (postings_lookup _ _ _ Hp) in Hocc. rewrite Hocc.
    unfold float_div. destruct (Req_dec_T _ 0) as [H0|_]; [| done].
    destruct (terms d) as [|y l]; [done |].
    pose proof (length_pos_INR (y :: l) y ltac:(by left)). lra.
  - rewrite (postings_unknown _ _ Hp), lookup_empty in Hocc. simpl in Hocc.
    rewrite <- Hocc. cbn [bind ret INR]. unfold Rdiv. f_equal. ring.
Qed.

Lemma score_document_value q m id d t :
  documents st !! id = Some d → t ∈ q → t ∈ terms d →
  (∀ t, t ∈ q → m !! t = Some (idf_value st t)) →
  ∃ s, score_document st (map (query_weight st q) q) m q id = ret (d, s)
       ∧ s = cosine_similarity st q d.
Proof.
  intros Hd Hq Ht Hm. unfold score_document, getitem. rewrite Hd. cbn [bind ret].
  assert (doc_id d = id) as Hid by (by eapply ic_key).
  rewrite document_vector_value; [| by rewrite Hid | by destruct (terms d); [inversion Ht|] | done].
  cbn [bind ret]. unfold spatial_distance_cosine.
  rewrite decide_True by (by rewrite !length_map).
  assert (0 < norm (map (query_weight st q) q)) as Hu.
  { apply (norm_pos _ (query_weight st q t)).
    - apply list_elem_of_fmap. eauto.
    - pose proof (query_weight_pos q t Hq). lra. }
  assert (0 < norm (map (document_weight st d) q)) as Hv.
  { apply (norm_pos _ (document_weight st d t)).
    - apply list_elem_of_fmap. eauto.
    - pose proof (document_weight_pos d t Ht). lra. }
  destruct (Req_dec_T _ 0) as [H0|_].
  { pose proof (Rmult_lt_0_compat _ _ Hu Hv). lra. }
  cbn [bind ret]. eexists. split; [done |]. unfold cosine_similarity. lra.
Qed.

Lemma scored_documents_value q :
  ∃ results, scored_documents st q = ret results ∧
    Forall2 (λ id r, documents st !! id = Some r.1
                     ∧ r.2 = cosine_similarity st q r.1)
            (elements (_get_relevant_doc_ids st q)) results.
Proof.
  unfold scored_documents. rewrite calculate_tf_idf_for_query_value.
  destruct (idf_mapping_total st Hc q ∅) as (m & -> & Hm). cbn [bind ret].
  apply for_each_spec. intros id Hid.
  apply elem_of_elements, relevant_doc_ids_documents in Hid as (d & t & Hd & Hq & Ht); [|done].
  destruct (score_document_value q m id d t Hd Hq Ht) as (s & Hs & ->).
  { intros t' Ht'. rewrite Hm. by rewrite decide_True. }
  eexists. split; [exact Hs | done].
Qed.

Lemma cosine_similarity_bounds q d t :
  t ∈ q → t ∈ terms d → 0 <= cosine_similarity st q d <= 1.
Proof.
  intros Hq Ht. unfold cosine_similarity.
  set (u := map (query_weight st q) q). set (v := map (document_weight st d) q).
  assert (0 < norm u) as Hu.
  { apply (norm_pos _ (query_weight st q t)).
    - apply list_elem_of_fmap. eauto.
    - pose proof (query_weight_pos q t Hq). lra. }
  assert (0 < norm v) as Hv.
  { apply (norm_pos _ (document_weight st d t)).
    - apply list_elem_of_fmap. eauto.
    - pose proof (document_weight_pos d t Ht). lra. }
  pose proof (Rmult_lt_0_compat _ _ Hu Hv) as Huv.
  assert (0 <= dot u v) as Hdot.
  { apply dot_nonneg; apply Forall_forall; intros x Hx;
      apply list_elem_of_fmap in Hx as (y & -> & Hy).
    - left. by apply query_weight_pos.
    - apply document_weight_nonneg. }
  pose proof (dot_le_norms u v) as Hle.
  split.
  - apply Rle_mult_inv_pos; done.
  - apply (Rmult_le_reg_r (norm u * norm v)); [done |].
    unfold Rdiv. rewrite Rmult_assoc, Rinv_l by lra. lra.
Qed.
End Scoring.

(** ** Sorting by score and slicing *)

Lemma insert_by_score_perm x l : insert_by_score x l ≡ₚ x :: l.
Proof.
  induction l as [|y l IH]; cbn [insert_by_score]; [done |].
  destruct (Rlt_dec _ _); [| done]. rewrite IH. apply Permutation_swap.
Qed.

Lemma sorted_by_score_perm l : sorted_by_score l ≡ₚ l.
Proof.
  unfold sorted_by_score. induction l as [|x l IH]; cbn [foldr]; [done |].
  by rewrite insert_by_score_perm, IH.
Qed.

Lemma length_sorted_by_score l : length (sorted_by_score l) = length l.
Proof. by rewrite sorted_by_score_perm. Qed.

Lemma insert_by_score_descending x l :
  descending l → descending (insert_by_score x l).
Proof.
  unfold descending. induction l as [|y l IH]; intros Hs; cbn [insert_by_score].
  - repeat constructor.
  - apply StronglySorted_cons in Hs as [Hy Hs].
    destruct (Rlt_dec (snd x) (snd y)) as [Hlt|Hge].
    + apply StronglySorted_cons. split; [| by apply IH].
      rewrite insert_by_score_perm. constructor; [| done]. by left.
    + apply StronglySorted_cons. split.
      * constructor; [by apply Rnot_lt_le |].
        eapply Forall_impl; [exact Hy |]. intros z Hz. simpl in Hz.
        apply Rnot_lt_le in Hge. by eapply Rle_trans.
      * by apply StronglySorted_cons.
Qed.

Lemma sorted_by_score_descending l : descending (sorted_by_score l).
Proof.
  unfold sorted_by_score. induction l as [|x l IH]; cbn [foldr].
  - constructor.
  - by apply insert_by_score_descending.
Qed.


Lemma slice_to_take {A} n (l : list A) : ∃ m, slice_to n l = take m l.
Proof. unfold slice_to. destruct (n <? 0)%Z; eauto. Qed.

Lemma length_slice_to {A} n (l : list A) :
  length (slice_to n l)
  = if (n <? 0)%Z then Z.to_nat (Z.of_nat (length l) + n)
    else Z.to_nat n `min` length l.
Proof.
  unfold slice_to. destruct (n <? 0)%Z eqn:Hn; rewrite length_take; [| done].
  apply Z.ltb_lt in Hn. lia.
Qed.

Lemma returned_results_take results k :
  ∃ m, returned_results results k = take m (sorted_by_score results).
Proof.
  unfold returned_results, top_results.
  destruct (slice_to_take (clamp_num_of_results k (length results))
                          (sorted_by_score results)) as [m1 ->].
  destruct (slice_to_take (clamp_num_of_results k (length results))
                          (take m1 (sorted_by_score results))) as [m2 ->].
  rewrite take_take. eauto.
Qed.


Lemma returned_results_subseteq results k : returned_results results k ⊆ results.
Proof.
  destruct (returned_results_take results k) as [m ->].
  intros x Hx. apply subseteq_take in Hx. by rewrite sorted_by_score_perm in Hx.
Qed.

(** Number of returned results: with a negative [num_of_results] the two
    slices each drop that many elements from the end. *)
Lemma length_returned_results results k :
  length (returned_results results k)
  = if (k <? 0)%Z then Z.to_nat (Z.of_nat (length results) + 2 * k)
    else Z.to_nat k `min` length results.
Proof.
  unfold returned_results, top_results, clamp_num_of_results.
  rewrite !length_slice_to, !length_sorted_by_score.
  repeat case_match;
    repeat match goal with
           | H : (_ <? _)%Z = true |- _ => apply Z.ltb_lt in H
           | H : (_ <? _)%Z = false |- _ => apply Z.ltb_ge in H
           end; lia.
Qed.

Lemma returned_results_nil k : returned_results [] k = [].
Proof.
  unfold returned_results, top_results, slice_to. cbn [sorted_by_score foldr].
  destruct (_ <? 0)%Z; by rewrite !take_nil.
Qed.

(** ** Queries on a consistent index *)

Lemma query_by_terms_value st q k :
  index_consistent st →
  ∃ results,
    scored_documents st q = ret results ∧
    Forall2 (λ id r, documents st !! id = Some r.1
                     ∧ r.2 = cosine_similarity st q r.1)
            (elements (_get_relevant_doc_ids st q)) results ∧
    query_by_terms st q k
    = ret (map (λ r, PyStr (text r.1)) (returned_results results k)).
Proof.
  intros Hc. destruct (scored_documents_value st Hc q) as (results & Hs & HF).
  exists results. split; [done |]. split; [done |].
  unfold query_by_terms. rewrite Hs. done.
Qed.

Lemma scored_ids st q results :
  index_consistent st →
  Forall2 (λ id r, documents st !! id = Some r.1
                   ∧ r.2 = cosine_similarity st q r.1)
          (elements (_get_relevant_doc_ids st q)) results →
  map (λ r, doc_id r.1) results = elements (_get_relevant_doc_ids st q).
Proof.
  intros Hc HF. induction HF as [|id r ids rs [Hd _] _ IH]; [done |].
  cbn [map]. rewrite IH. f_equal. by eapply ic_key.
Qed.

(** ** The sample corpora are reachable *)

Lemma single_corpus_reachable : reachable single_corpus.
Proof. apply add_documents_reachable, reachable_init. Qed.

Lemma corpus_reachable : reachable corpus.
Proof. apply add_documents_reachable, reachable_init. Qed.

Lemma corpus3_reachable : reachable corpus3.
Proof. apply add_documents_reachable, reachable_init. Qed.

(** * The claims *)

(** C1: in every engine state reached by [add_document] calls, a term is a
    key of the inverted index iff some indexed document contains it; a
    document id is listed under a term iff the document stored under that id
    contains the term; the stored value is the exact number of occurrences
    of the term in that document's term sequence; and right after a
    successful [add_document d] the postings of every term of [d] hold the
    count of that term in [d]. *)
Theorem C1_index_matches_documents st :
  reachable st →
  (∀ t, t ∈ dom (inverted_index st)
        ↔ ∃ id d, documents st !! id = Some d ∧ t ∈ terms d) ∧
  (∀ t id, id ∈ dom (postings st t)
           ↔ ∃ d, documents st !! id = Some d ∧ t ∈ terms d) ∧
  (∀ t id n, postings st t !! id = Some n →
             ∃ d, documents st !! id = Some d ∧ n = occurrences t (terms d)) ∧
  (∀ d t, returned (add_document st d) = true → t ∈ terms d →
          postings (engine_after (add_document st d)) t !! doc_id d
          = Some (occurrences t (terms d))).
Proof.
  intros Hr. pose proof (reachable_consistent st Hr) as Hc.
  split; [| split; [| split]].
  - intros t. by apply elem_of_dom_index.
  - intros t id. by apply elem_of_dom_postings.
  - intros t id n Hn. rewrite postings_consistent in Hn by done.
    apply expected_entry_Some in Hn as (d & ? & _ & ?). eauto.
  - intros d t Hret Hin.
    pose proof (index_consistent_add st d Hc) as Hc'.
    rewrite postings_consistent by done.
    unfold add_document in *.
    destruct (documents st !! doc_id d) eqn:Hd; [done |]. simpl.
    rewrite lookup_insert_eq. apply expected_entry_Some. eauto.
Qed.

Lemma C1_index_matches_documents_witness :
  postings corpus "dog" !! "d2" = Some 2 ∧ postings corpus "dog" !! "d1" = Some 1.
Proof.
  destruct (C1_index_matches_documents corpus corpus_reachable)
    as (_ & Hdom & Hval & _).
  assert (∀ d : Document, documents corpus !! doc_id d = Some d →
            "dog" ∈ terms d →
            postings corpus "dog" !! doc_id d = Some (occurrences "dog" (terms d)))
    as Hpost.
  { intros d Hd Hin.
    assert (doc_id d ∈ dom (postings corpus "dog")) as Hid by (apply Hdom; eauto).
    apply elem_of_dom in Hid as [n Hn]. rewrite Hn.
    destruct (Hval _ _ _ Hn) as (d' & Hd' & ->). congruence. }
  split.
  - apply (Hpost doc2); [vm_compute; reflexivity | set_solver].
  - apply (Hpost doc1); [vm_compute; reflexivity | set_solver].
Defined.

(** C3: when the id of [d] is already a key of the document store,
    [add_document d] leaves the engine as it is (documents and inverted
    index both unchanged), returns [False] to the caller and prints the
    duplicate message. *)
Theorem C3_duplicate_add_is_rejected st d :
  is_Some (documents st !! doc_id d) →
  engine_after (add_document st d) = st ∧
  documents (engine_after (add_document st d)) = documents st ∧
  inverted_index (engine_after (add_document st d)) = inverted_index st ∧
  returned (add_document st d) = false ∧
  printed (add_document st d) = [duplicate_message (doc_id d)].
Proof. intros H. by rewrite (add_document_duplicate st d H). Qed.

Lemma C3_duplicate_add_is_rejected_witness :
  engine_after (add_document corpus (mkDocument "d1" "fish" ["fish"])) = corpus ∧
  returned (add_document corpus (mkDocument "d1" "fish" ["fish"])) = false.
Proof.
  destruct (C3_duplicate_add_is_rejected corpus (mkDocument "d1" "fish" ["fish"]))
    as (H1 & _ & _ & H2 & _).
  - exists doc1. vm_compute. reflexivity.
  - split; [exact H1 | exact H2].
Defined.

(** C2: in every reachable engine state with [N] indexed documents, the IDF
    computed for a term is [1] when no indexed document contains the term,
    and [1 + ln (N / df)] otherwise, [df] being the number of indexed
    documents that contain the term; the computation raises nothing, and
    with a single indexed document every term present gets the value [1]. *)
Theorem C2_idf_formula st t :
  reachable st →
  (document_frequency st t = 0%nat → _calculate_term_idf st t = ret 1%R) ∧
  (document_frequency st t ≠ 0%nat →
     _calculate_term_idf st t
     = ret (1 + ln (INR (size (documents st)) / INR (document_frequency st t)))%R) ∧
  (size (documents st) = 1%nat → document_frequency st t ≠ 0%nat →
     _calculate_term_idf st t = ret 1%R).
Proof.
  intros Hr. pose proof (reachable_consistent st Hr) as Hc.
  rewrite calculate_term_idf_value by done. unfold idf_value.
  split; [| split].
  - by intros ->.
  - intros Hdf. by destruct (document_frequency st t).
  - intros HN Hdf. pose proof (document_frequency_le st Hc t) as Hle.
    assert (document_frequency st t = 1%nat) as -> by lia.
    rewrite HN. simpl. f_equal.
    replace (1 / 1)%R with 1%R by lra. rewrite ln_1. lra.
Qed.

Lemma C2_idf_formula_witness :
  _calculate_term_idf corpus "dog" = ret (1 + ln (INR 2 / INR 2))%R ∧
  _calculate_term_idf corpus "zebra" = ret 1%R ∧
  _calculate_term_idf single_corpus "cat" = ret 1%R.
Proof.
  split; [| split].
  - destruct (C2_idf_formula corpus "dog" corpus_reachable) as (_ & H & _).
    apply H. vm_compute. lia.
  - destruct (C2_idf_formula corpus "zebra" corpus_reachable) as (H & _ & _).
    apply H. vm_compute. reflexivity.
  - destruct (C2_idf_formula single_corpus "cat" single_corpus_reachable) as (_ & _ & H).
    apply H; vm_compute; [reflexivity | lia].
Defined.

(** ** What every scored pair satisfies *)

Lemma scored_documents_elem st q results r :
  index_consistent st →
  scored_documents st q = ret results →
  r ∈ results →
  documents st !! doc_id r.1 = Some r.1 ∧
  doc_id r.1 ∈ _get_relevant_doc_ids st q ∧
  r.2 = cosine_similarity st q r.1.
Proof.
  intros Hc Hs Hr.
  destruct (scored_documents_value st Hc q) as (results' & Hs' & HF).
  rewrite Hs in Hs'. injection Hs' as <-.
  assert (∃ id, id ∈ elements (_get_relevant_doc_ids st q)
                ∧ documents st !! id = Some r.1
                ∧ r.2 = cosine_similarity st q r.1) as (id & Hid & Hd & Hsim).
  { clear Hs. induction HF as [|id r' ids rs [Hd Hsim] _ IH]; [inversion Hr |].
    apply elem_of_cons in Hr as [->|Hr].
    - exists id. split; [by left | done].
    - destruct (IH Hr) as (id' & ? & ?). exists id'. split; [by right | done]. }
  assert (doc_id r.1 = id) as -> by (by eapply ic_key).
  split; [done |]. split; [by apply elem_of_elements | done].
Qed.


(** C7: in every reachable state, the candidate set of a query is the union,
    over the query terms, of the ids listed in those terms' postings; the
    documents that get scored are exactly the candidates, each once; and an
    indexed document that shares no term with the query is no candidate and
    is not among the scored pairs. *)
Theorem C7_scored_documents_are_the_candidates st q :
  reachable st →
  (∀ id, id ∈ _get_relevant_doc_ids st q
         ↔ ∃ t, t ∈ q ∧ id ∈ dom (postings st t)) ∧
  (∃ results, scored_documents st q = ret results ∧
              map (λ r, doc_id r.1) results
              = elements (_get_relevant_doc_ids st q)) ∧
  (∀ id d, documents st !! id = Some d →
           (∀ t, t ∈ q → t ∉ terms d) →
           (id ∉ _get_relevant_doc_ids st q) ∧
           ∀ results, scored_documents st q = ret results → d ∉ map fst results).
Proof.
  intros Hr. pose proof (reachable_consistent st Hr) as Hc.
  split; [| split].
  - intros id. apply elem_of_relevant_doc_ids.
  - destruct (scored_documents_value st Hc q) as (results & Hs & HF).
    exists results. split; [done |]. by apply scored_ids.
  - intros id d Hd Hno.
    assert (id ∉ _get_relevant_doc_ids st q) as Hnot.
    { intros Hid. apply relevant_doc_ids_documents in Hid as (d' & t & Hd' & Hq & Ht); [|done].
      rewrite Hd in Hd'. injection Hd' as <-. by apply (Hno t). }
    split; [done |]. intros results Hs Hin.
    apply list_elem_of_fmap in Hin as (r & -> & Hin).
    destruct (scored_documents_elem st q results r Hc Hs Hin) as (Hd' & Hid & _).
    assert (doc_id r.1 = id) as Heq by (by eapply ic_key).
    by rewrite Heq in Hid.
Qed.

Lemma C7_scored_documents_are_the_candidates_witness :
  (∃ results, scored_documents corpus ["cat"] = ret results ∧
              map (λ r, doc_id r.1) results = ["d1"]) ∧
  "d2" ∉ _get_relevant_doc_ids corpus ["cat"].
Proof.
  destruct (C7_scored_documents_are_the_candidates corpus ["cat"] corpus_reachable)
    as (_ & Hscored & Hout).
  split.
  - exact Hscored.
  - apply (Hout "d2" doc2); [vm_compute; reflexivity |].
    intros t Ht Hin. apply list_elem_of_singleton in Ht as ->.
    vm_compute in Hin. set_solver.
Defined.

(** In exact arithmetic, that is with the scores read as real numbers, the
    similarity of every scored candidate lies between 0 and 1.  This says
    nothing on the rounding of the doubles that numpy and scipy compute. *)
Lemma exact_similarity_between_0_and_1 st q :
  reachable st →
  ∃ results, scored_documents st q = ret results ∧
             Forall (λ r, (0 <= r.2 <= 1)%R) results.
Proof.
  intros Hr. pose proof (reachable_consistent st Hr) as Hc.
  destruct (scored_documents_value st Hc q) as (results & Hs & HF).
  exists results. split; [done |]. apply Forall_forall. intros r Hin.
  destruct (scored_documents_elem st q results r Hc Hs Hin) as (Hd & Hid & ->).
  apply relevant_doc_ids_documents in Hid as (d & t & Hd' & Hq & Ht); [|done].
  rewrite Hd in Hd'. injection Hd' as <-.
  by eapply cosine_similarity_bounds.
Qed.

(** C9: in every reachable state, every document id listed in a postings
    entry is a key of the document store; hence the store lookup done for
    each candidate id succeeds and [query_by_terms] raises no [KeyError]. *)
Theorem C9_posting_ids_are_stored st :
  reachable st →
  (∀ t p id, inverted_index st !! t = Some p → id ∈ dom p →
             id ∈ dom (documents st)) ∧
  (∀ q id, id ∈ _get_relevant_doc_ids st q →
           ∃ d, getitem (documents st) id = ret d) ∧
  (∀ q k, query_by_terms st q k ≠ raise KeyError).
Proof.
  intros Hr. pose proof (reachable_consistent st Hr) as Hc.
  split; [| split].
  - intros t p id Hp Hid. rewrite <- (postings_lookup _ _ _ Hp) in Hid.
    by eapply postings_subset_documents.
  - intros q id Hid.
    apply relevant_doc_ids_documents in Hid as (d & _ & Hd & _); [|done].
    exists d. unfold getitem. by rewrite Hd.
  - intros q k. destruct (query_by_terms_value st q k Hc) as (? & _ & _ & ->). done.
Qed.

Lemma C9_posting_ids_are_stored_witness :
  (∀ q id, id ∈ _get_relevant_doc_ids corpus q →
           ∃ d, getitem (documents corpus) id = ret d) ∧
  query_by_terms corpus ["dog"] 5 ≠ raise KeyError.
Proof.
  destruct (C9_posting_ids_are_stored corpus corpus_reachable) as (_ & H1 & H2).
  split; [exact H1 | exact (H2 ["dog"] 5%Z)].
Defined.

(** ** Looking the sample corpora up *)

Lemma float_div_ret (a b : R) : b ≠ 0%R → float_div a b = ret (a / b)%R.
Proof. intros Hb. unfold float_div. by destruct (Req_dec_T b 0). Qed.

Lemma float_div_by_zero (a : R) : float_div a 0 = raise ZeroDivisionError.
Proof. unfold float_div. by destruct (Req_dec_T 0 0). Qed.

Lemma math_log_ret (x : R) : (0 < x)%R → math_log x = ret (ln x).
Proof. intros Hx. unfold math_log. by destruct (Rlt_dec 0 x). Qed.





(** ** Number of returned results *)

Lemma query_by_terms_length st q k :
  index_consistent st →
  ∃ res, query_by_terms st q k = ret res ∧
         length res
         = if (k <? 0)%Z
           then Z.to_nat (Z.of_nat (size (_get_relevant_doc_ids st q)) + 2 * k)
           else Z.to_nat k `min` size (_get_relevant_doc_ids st q).
Proof.
  intros Hc. destruct (query_by_terms_value st q k Hc) as (results & _ & HF & ->).
  eexists. split; [done |].
  rewrite length_map, length_returned_results.
  apply Forall2_length in HF. rewrite <- HF. done.
Qed.

(** An empty query, or a request for zero results, gives the empty list, and
    a non-negative request [k] gives at most [min k candidates] results. *)
Lemma query_by_terms_length_nonneg st q k :
  index_consistent st → (0 ≤ k)%Z →
  ∃ res, query_by_terms st q k = ret res ∧
         length res = Z.to_nat k `min` size (_get_relevant_doc_ids st q) ∧
         (q = [] → res = []) ∧ (k = 0%Z → res = []).
Proof.
  intros Hc Hk. destruct (query_by_terms_length st q k Hc) as (res & Hres & Hlen).
  assert ((k <? 0)%Z = false) as Hk' by (by apply Z.ltb_ge).
  rewrite Hk' in Hlen. exists res. split; [done |]. split; [done |]. split.
  - intros ->. apply nil_length_inv. rewrite Hlen. vm_compute size. lia.
  - intros ->. apply nil_length_inv. rewrite Hlen. done.
Qed.

(** C5, the failing input: with three candidate documents and
    [num_of_results = -1], [query_by_terms] returns one result, where the
    claim has an empty result for every [k <= 0]. *)
Theorem C5_negative_num_of_results_returns_a_document :
  ∃ res, query_by_terms corpus3 ["dog"] (-1) = ret res ∧ length res = 1%nat.
Proof.
  pose proof (reachable_consistent _ corpus3_reachable) as Hc.
  destruct (query_by_terms_length corpus3 ["dog"] (-1) Hc) as (res & Hres & Hlen).
  exists res. split; [done |]. rewrite Hlen. vm_compute. reflexivity.
Qed.



(** C10: adding a document without terms under a fresh id succeeds and
    leaves the inverted index as it was; in every later state the document
    is no candidate of any query and is not among the scored or returned
    pairs; and it counts in the number of documents [N] of the IDF. *)
Theorem C10_document_without_terms st e :
  reachable st → terms e = [] → documents st !! doc_id e = None →
  returned (add_document st e) = true ∧
  inverted_index (engine_after (add_document st e)) = inverted_index st ∧
  size (documents (engine_after (add_document st e))) = S (size (documents st)) ∧
  (∀ ds q, doc_id e ∉ _get_relevant_doc_ids
                        (add_documents (engine_after (add_document st e)) ds) q) ∧
  (∀ ds q k results,
     scored_documents (add_documents (engine_after (add_document st e)) ds) q
     = ret results →
     ∀ r, r ∈ results ∨ r ∈ returned_results results k → doc_id r.1 ≠ doc_id e) ∧
  (∀ t, document_frequency st t ≠ 0%nat →
        _calculate_term_idf (engine_after (add_document st e)) t
        = ret (1 + ln (INR (S (size (documents st)))
                       / INR (document_frequency st t)))%R).
Proof.
  intros Hr He Hfresh.
  pose proof (reachable_consistent st Hr) as Hc.
  pose proof (index_consistent_add st e Hc) as Hc'.
  assert (∀ ds q, doc_id e ∉ _get_relevant_doc_ids
            (add_documents (engine_after (add_document st e)) ds) q) as Hnever.
  { intros ds q Hid.
    assert (index_consistent (add_documents (engine_after (add_document st e)) ds)) as Hcd.
    { apply reachable_consistent, add_documents_reachable. by constructor. }
    apply relevant_doc_ids_documents in Hid as (d & t & Hd & _ & Ht); [|done].
    assert (documents (add_documents (engine_after (add_document st e)) ds)
              !! doc_id e = Some e) as Hkept.
    { apply add_documents_keeps. rewrite add_document_fresh by done. simpl.
      apply lookup_insert_eq. }
    rewrite Hkept in Hd. injection Hd as <-. rewrite He in Ht. inversion Ht. }
  assert (reachable (engine_after (add_document st e))) as Hr' by (by constructor).
  assert (documents (engine_after (add_document st e))
          = <[doc_id e := e]> (documents st)) as Hdocs.
  { by rewrite add_document_fresh. }
  assert (inverted_index (engine_after (add_document st e)) = inverted_index st)
    as Hidx.
  { rewrite add_document_fresh by done. simpl.
    unfold update_inverted_index. by rewrite He. }
  split; [by rewrite add_document_fresh |]. split; [done |].
  split; [rewrite Hdocs; by apply map_size_insert_None |].
  split; [done |]. split.
  - intros ds q k results Hs r Hin.
    assert (r ∈ results) as Hin'.
    { destruct Hin as [?|Hin]; [done | by apply returned_results_subseteq in Hin]. }
    assert (index_consistent (add_documents (engine_after (add_document st e)) ds))
      as Hcd by (by apply reachable_consistent, add_documents_reachable).
    destruct (scored_documents_elem _ q results r Hcd Hs Hin') as (_ & Hid & _).
    intros Heq. rewrite Heq in Hid. by apply (Hnever ds q).
  - intros t Hdf. rewrite calculate_term_idf_value by done.
    unfold idf_value.
    assert (document_frequency (engine_after (add_document st e)) t
            = document_frequency st t) as ->.
    { rewrite <- !size_postings by done. unfold postings. by rewrite Hidx. }
    rewrite Hdocs, map_size_insert_None by done.
    by destruct (document_frequency st t).
Qed.

Lemma C10_document_without_terms_witness :
  returned (add_document corpus doc_without_terms) = true ∧
  inverted_index (engine_after (add_document corpus doc_without_terms))
  = inverted_index corpus ∧
  size (documents (engine_after (add_document corpus doc_without_terms))) = 3%nat.
Proof.
  destruct (C10_document_without_terms corpus doc_without_terms corpus_reachable)
    as (H1 & H2 & H3 & _).
  - reflexivity.
  - vm_compute. reflexivity.
  - split; [exact H1 |]. split; [exact H2 | exact H3].
Defined.

(** ** The unguarded division of the document-side TF *)

Lemma unbuilt_engine_idf :
  _calculate_term_idf unbuilt_engine "x" = ret (1 + ln (1 / 1))%R.
Proof.
  unfold _calculate_term_idf.
  assert (inverted_index unbuilt_engine !! "x" = Some {[ "d" := 1%nat ]}) as ->
    by (vm_compute; reflexivity).
  assert (size (default (∅ : gmap string nat) (Some {[ "d" := 1%nat ]})) = 1%nat) as ->
    by (vm_compute; reflexivity).
  assert (size (documents unbuilt_engine) = 1%nat) as -> by (vm_compute; reflexivity).
  cbn [INR]. rewrite float_div_ret by lra. cbn [bind ret].
  rewrite math_log_ret by lra. reflexivity.
Qed.

Lemma unbuilt_engine_query_vector :
  calculate_tf_idf_for_query unbuilt_engine ["x"]
  = ret [(1 / 1 * (1 + ln (1 / 1)))%R].
Proof.
  unfold calculate_tf_idf_for_query. cbn [for_each]. unfold getitem.
  assert (foldl count_query_term ∅ ["x"] !! "x" = Some 1%nat) as ->
    by (vm_compute; reflexivity).
  cbn [bind ret length INR]. rewrite float_div_ret by lra. cbn [bind ret].
  rewrite unbuilt_engine_idf. reflexivity.
Qed.

Lemma unbuilt_engine_document_vector m :
  document_vector unbuilt_engine m (mkDocument "d" "" []) ["x"]
  = raise ZeroDivisionError.
Proof.
  unfold document_vector. cbn [for_each].
  assert (inverted_index unbuilt_engine !! "x" = Some {[ "d" := 1%nat ]}) as ->
    by (vm_compute; reflexivity).
  cbn [terms length INR]. rewrite float_div_by_zero. reflexivity.
Qed.

(** Off the invariant the division of the document-side TF is not guarded:
    on an engine value whose document without terms is listed in a postings
    entry (no sequence of [add_document] calls builds one), the query ends
    in a [ZeroDivisionError]. *)
Lemma unbuilt_engine_query_raises :
  query_by_terms unbuilt_engine ["x"] 5 = raise ZeroDivisionError.
Proof.
  unfold query_by_terms, scored_documents.
  rewrite unbuilt_engine_query_vector. cbn [bind ret idf_mapping].
  rewrite unbuilt_engine_idf. cbn [bind ret].
  assert (elements (_get_relevant_doc_ids unbuilt_engine ["x"]) = ["d"]) as ->
    by (vm_compute; reflexivity).
  cbn [for_each]. unfold score_document at 1. unfold getitem.
  assert (documents unbuilt_engine !! "d" = Some (mkDocument "d" "" [])) as ->
    by (vm_compute; reflexivity).
  cbn [bind ret]. rewrite unbuilt_engine_document_vector. reflexivity.
Qed.

(** * Further properties of the engine *)

(** ** The document store over a batch of adds *)

Lemma add_document_lookup st d id :
  documents (engine_after (add_document st d)) !! id
  = match documents st !! id with
    | Some x => Some x
    | None => if decide (doc_id d = id) then Some d else None
    end.
Proof.
  destruct (documents st !! doc_id d) as [d0|] eqn:Hd.
  - rewrite add_document_duplicate by eauto. simpl.
    destruct (documents st !! id) eqn:Hid; [done |].
    rewrite decide_False; [done | congruence].
  - rewrite add_document_fresh by done. simpl. rewrite lookup_insert.
    destruct (decide (doc_id d = id)) as [<-|Hne]; [by rewrite Hd |].
    by destruct (documents st !! id).
Qed.

Lemma add_documents_lookup st ds id :
  documents (add_documents st ds) !! id
  = match documents st !! id with
    | Some x => Some x
    | None => head (filter (λ d, doc_id d = id) ds)
    end.
Proof.
  revert st. induction ds as [|d ds IH]; intros st.
  - simpl. by destruct (documents st !! id).
  - cbn [add_documents foldl]. fold (add_documents (engine_after (add_document st d)) ds).
    rewrite IH, add_document_lookup, filter_cons.
    destruct (documents st !! id); [done |].
    by destruct (decide (doc_id d = id)).
Qed.

(** X1: after a batch of [add_document] calls on a fresh engine, the
    document stored under an id is the first document of the batch that
    carries this id; later documents with the same id are dropped, and an
    id that no document of the batch carries is absent. *)
Theorem first_document_of_an_id_is_stored ds id :
  documents (add_documents IREngine__init__ ds) !! id
  = head (filter (λ d, doc_id d = id) ds).
Proof. rewrite add_documents_lookup. simpl. by rewrite lookup_empty. Qed.

(** X2: a batch of adds extends the keys of the document store by the ids
    of the batch, so that the number of documents [N] of a corpus built
    from a batch is the number of distinct ids in it. *)
Theorem stored_ids_after_batch st ds :
  dom (documents (add_documents st ds))
  = dom (documents st) ∪ list_to_set (map doc_id ds) ∧
  size (documents (add_documents IREngine__init__ ds))
  = size (list_to_set (map doc_id ds) : gset string).
Proof.
  assert (∀ st, dom (documents (add_documents st ds))
                = dom (documents st) ∪ list_to_set (map doc_id ds)) as Hdom.
  { clear st. intros st. apply set_eq. intros id.
    rewrite elem_of_union, !elem_of_dom, add_documents_lookup, elem_of_list_to_set.
    destruct (documents st !! id) as [x|] eqn:Hx.
    - split; [eauto | intros _; eauto].
    - split.
      + intros [d Hd]. right. apply head_Some_elem_of in Hd.
        apply list_elem_of_filter in Hd as [<- Hd].
        apply list_elem_of_fmap. eauto.
      + intros [[? ?]|Hin]; [done |].
        apply list_elem_of_fmap in Hin as (d & -> & Hd).
        assert (d ∈ filter (λ d', doc_id d' = doc_id d) ds) as Hf
          by (by apply list_elem_of_filter).
        destruct (filter (λ d', doc_id d' = doc_id d) ds) as [|y l]; [inversion Hf |].
        by exists y. }
  split; [apply Hdom |].
  rewrite <- size_dom, Hdom. simpl. rewrite dom_empty_L. f_equal. set_solver.
Qed.

(** ** The index is a function of the document store *)

Lemma postings_unique st1 st2 t :
  index_consistent st1 → index_consistent st2 →
  documents st1 = documents st2 → postings st1 t = postings st2 t.
Proof.
  intros H1 H2 Hd. apply map_eq. intros id.
  by rewrite !postings_consistent, Hd.
Qed.

Lemma consistent_index_unique st1 st2 :
  index_consistent st1 → index_consistent st2 →
  documents st1 = documents st2 → st1 = st2.
Proof.
  intros H1 H2 Hd.
  assert (inverted_index st1 = inverted_index st2) as Hi.
  { apply map_eq. intros t. pose proof (postings_unique st1 st2 t H1 H2 Hd) as Hp.
    destruct (inverted_index st1 !! t) as [p1|] eqn:Hp1;
      destruct (inverted_index st2 !! t) as [p2|] eqn:Hp2.
    - rewrite (postings_lookup _ _ _ Hp1), (postings_lookup _ _ _ Hp2) in Hp.
      by rewrite Hp.
    - rewrite (postings_lookup _ _ _ Hp1), (postings_unknown _ _ Hp2) in Hp.
      by apply (ic_nonempty _ H1) in Hp1.
    - rewrite (postings_unknown _ _ Hp1), (postings_lookup _ _ _ Hp2) in Hp.
      by apply (ic_nonempty _ H2) in Hp2.
    - done. }
  destruct st1, st2. simpl in *. by subst.
Qed.

(** X3: the inverted index is determined by the document store: two engine
    states built by [add_document] calls that hold the same documents are
    the same engine, postings included. *)
Theorem index_is_determined_by_documents st1 st2 :
  reachable st1 → reachable st2 →
  documents st1 = documents st2 →
  inverted_index st1 = inverted_index st2 ∧ st1 = st2.
Proof.
  intros H1 H2 Hd.
  assert (st1 = st2) as ->; [| done].
  apply consistent_index_unique; [by apply reachable_consistent .. | done].
Qed.

Lemma index_is_determined_by_documents_witness :
  inverted_index (add_documents IREngine__init__ [doc2; doc1])
  = inverted_index corpus.
Proof.
  apply (index_is_determined_by_documents
           (add_documents IREngine__init__ [doc2; doc1]) corpus).
  - apply add_documents_reachable, reachable_init.
  - apply corpus_reachable.
  - vm_compute. reflexivity.
Defined.

Lemma filter_id_at_most_one (ds : list Document) id :
  NoDup (map doc_id ds) → length (filter (λ d, doc_id d = id) ds) ≤ 1.
Proof.
  induction ds as [|d ds IH]; intros Hnd; [simpl; lia |].
  cbn [map] in Hnd. apply NoDup_cons in Hnd as [Hd Hnd].
  rewrite filter_cons. destruct (decide (doc_id d = id)) as [<-|Hne]; [| by apply IH].
  assert (filter (λ d', doc_id d' = doc_id d) ds = []) as ->; [| simpl; lia].
  destruct (filter (λ d', doc_id d' = doc_id d) ds) as [|y l] eqn:Hf; [done |].
  assert (y ∈ filter (λ d', doc_id d' = doc_id d) ds) as Hy by (rewrite Hf; by left).
  apply list_elem_of_filter in Hy as [Hy1 Hy2].
  exfalso. apply Hd. rewrite <- Hy1. apply list_elem_of_fmap. eauto.
Qed.

(** X4: the order of indexing does not matter: adding the documents of a
    batch with pairwise different ids in any other order gives the same
    engine, documents and postings alike. *)
Theorem indexing_order_is_irrelevant ds ds' :
  NoDup (map doc_id ds) → ds ≡ₚ ds' →
  add_documents IREngine__init__ ds = add_documents IREngine__init__ ds'.
Proof.
  intros Hnd Hperm.
  apply consistent_index_unique;
    [apply reachable_consistent, add_documents_reachable, reachable_init .. |].
  apply map_eq. intros id. rewrite !add_documents_lookup. simpl.
  rewrite lookup_empty.
  pose proof (filter_id_at_most_one ds id Hnd) as Hlen.
  assert (filter (λ d, doc_id d = id) ds ≡ₚ filter (λ d, doc_id d = id) ds') as Hf
    by (by rewrite Hperm).
  destruct (filter (λ d, doc_id d = id) ds) as [|x [|y l]]; [| | simpl in Hlen; lia].
  - apply Permutation_nil_l in Hf. by rewrite Hf.
  - apply Permutation_singleton_l in Hf. by rewrite Hf.
Qed.

Lemma indexing_order_is_irrelevant_witness :
  add_documents IREngine__init__ [doc1; doc2; doc3]
  = add_documents IREngine__init__ [doc3; doc1; doc2].
Proof.
  apply indexing_order_is_irrelevant.
  - vm_compute. repeat constructor; set_solver.
  - symmetry. apply (Permutation_cons_append [doc1; doc2] doc3).
Defined.

(** ** What one [add_document] changes in the index *)

(** X5: on any engine value, [add_document d] leaves the postings of every
    other document id as they were, for every term, and removes no key from
    the inverted index; a successful add makes exactly the terms of [d] new
    keys where they were none. *)
Theorem add_document_changes_only_its_own_postings st d :
  (∀ t id, id ≠ doc_id d →
           postings (engine_after (add_document st d)) t !! id
           = postings st t !! id) ∧
  dom (inverted_index st) ⊆ dom (inverted_index (engine_after (add_document st d))) ∧
  (returned (add_document st d) = true →
   dom (inverted_index (engine_after (add_document st d)))
   = list_to_set (terms d) ∪ dom (inverted_index st)).
Proof.
  destruct (documents st !! doc_id d) as [d0|] eqn:Hd.
  - rewrite add_document_duplicate by eauto. simpl. done.
  - rewrite add_document_fresh by done. simpl. split; [| split].
    + intros t id Hid. rewrite <- !entry_postings. simpl.
      rewrite update_inverted_index_entry.
      rewrite decide_False; [done | intros [? _]; done].
    + rewrite update_inverted_index_dom. set_solver.
    + intros _. apply update_inverted_index_dom.
Qed.

(** ** Document frequency and IDF *)

(** X6: in every reachable state the length of a term's postings is its
    document frequency, the number of stored documents that contain the
    term; it never exceeds the number of documents, and it is zero exactly
    for the terms that are no key of the index. *)
Theorem postings_length_is_document_frequency st t :
  reachable st →
  size (postings st t) = document_frequency st t ∧
  document_frequency st t ≤ size (documents st) ∧
  (document_frequency st t = 0 ↔ inverted_index st !! t = None).
Proof.
  intros Hr. pose proof (reachable_consistent st Hr) as Hc.
  split; [by apply size_postings |]. split; [by apply document_frequency_le |].
  destruct (inverted_index st !! t) as [p|] eqn:Hp.
  - destruct (document_frequency_known st Hc t p Hp) as [_ Hne]. split; done.
  - split; [done |]. intros _. by apply document_frequency_unknown.
Qed.

Lemma postings_length_is_document_frequency_witness :
  size (postings corpus "dog") = document_frequency corpus "dog" ∧
  document_frequency corpus "dog" ≤ size (documents corpus).
Proof.
  destruct (postings_length_is_document_frequency corpus "dog" corpus_reachable)
    as (H1 & H2 & _).
  split; [exact H1 | exact H2].
Defined.

Lemma ln_monotone (x y : R) : (0 < x)%R → (x <= y)%R → (ln x <= ln y)%R.
Proof.
  intros Hx [Hlt|<-]; [| lra]. left. by apply ln_increasing.
Qed.

(** X7: in every reachable state the IDF of every term is computed and is at
    least 1; a term that every stored document contains gets exactly 1; and
    of two indexed terms the one found in fewer documents never gets the
    smaller IDF. *)
Theorem idf_is_at_least_one_and_favours_rare_terms st :
  reachable st →
  (∀ t, ∃ x, _calculate_term_idf st t = ret x ∧ (1 <= x)%R) ∧
  (∀ t, document_frequency st t ≠ 0 →
        document_frequency st t = size (documents st) →
        _calculate_term_idf st t = ret 1%R) ∧
  (∀ t1 t2 x1 x2,
     document_frequency st t1 ≠ 0 →
     document_frequency st t1 ≤ document_frequency st t2 →
     _calculate_term_idf st t1 = ret x1 →
     _calculate_term_idf st t2 = ret x2 →
     (x2 <= x1)%R).
Proof.
  intros Hr. pose proof (reachable_consistent st Hr) as Hc.
  split; [| split].
  - intros t. exists (idf_value st t).
    split; [by apply calculate_term_idf_value | by apply idf_value_ge_1].
  - intros t Hne Hall. rewrite calculate_term_idf_value by done.
    unfold idf_value. destruct (document_frequency st t) eqn:Hdf; [done |].
    rewrite Hall. f_equal. unfold Rdiv. rewrite Rinv_r.
    + rewrite ln_1. lra.
    + apply not_0_INR. lia.
  - intros t1 t2 x1 x2 Hne Hle H1 H2.
    rewrite calculate_term_idf_value in H1, H2 by done.
    injection H1 as <-. injection H2 as <-. unfold idf_value.
    destruct (document_frequency st t1) as [|n1] eqn:Hd1; [done |].
    destruct (document_frequency st t2) as [|n2] eqn:Hd2; [lia |].
    assert (0 < INR (S n1))%R as Hp1 by (apply lt_0_INR; lia).
    assert (0 < INR (S n2))%R as Hp2 by (apply lt_0_INR; lia).
    assert (INR (S n1) <= INR (S n2))%R as HleR by (apply le_INR; lia).
    pose proof (document_frequency_le st Hc t2) as HN. rewrite Hd2 in HN.
    assert (0 < INR (size (documents st)))%R as HpN by (apply lt_0_INR; lia).
    apply Rplus_le_compat_l, ln_monotone.
    + by apply Rdiv_lt_0_compat.
    + unfold Rdiv. apply Rmult_le_compat_l; [lra |].
      by apply Rinv_le_contravar.
Qed.

Lemma idf_is_at_least_one_and_favours_rare_terms_witness :
  (∃ x, _calculate_term_idf corpus "cat" = ret x ∧ (1 <= x)%R) ∧
  _calculate_term_idf corpus "dog" = ret 1%R.
Proof.
  destruct (idf_is_at_least_one_and_favours_rare_terms corpus corpus_reachable)
    as (H1 & H2 & _).
  split; [exact (H1 "cat") |].
  apply H2; vm_compute; [lia | reflexivity].
Defined.

(** X8: on any engine value, [_calculate_term_idf] has four outcomes: 1 for
    a term that is no key of the index; a [ZeroDivisionError] for a key
    with an empty postings map; a [ValueError] (the logarithm of 0) for a
    key with postings when no document is stored; and
    [1 + ln (N / len(postings))] otherwise. *)
Theorem idf_outcomes st t :
  (inverted_index st !! t = None → _calculate_term_idf st t = ret 1%R) ∧
  (inverted_index st !! t = Some ∅ →
   _calculate_term_idf st t = raise ZeroDivisionError) ∧
  (∀ p, inverted_index st !! t = Some p → p ≠ ∅ → documents st = ∅ →
        _calculate_term_idf st t = raise ValueError) ∧
  (∀ p, inverted_index st !! t = Some p → p ≠ ∅ → documents st ≠ ∅ →
        _calculate_term_idf st t
        = ret (1 + ln (INR (size (documents st)) / INR (size p)))%R).
Proof.
  unfold _calculate_term_idf. split; [| split; [| split]].
  - by intros ->.
  - intros ->. simpl. rewrite map_size_empty. simpl.
    by rewrite float_div_by_zero.
  - intros p -> Hp ->. simpl. rewrite map_size_empty. simpl.
    assert (size p ≠ 0) as Hs by (by rewrite map_size_empty_iff).
    rewrite float_div_ret by (by apply not_0_INR). cbn [bind ret].
    unfold math_log. destruct (Rlt_dec 0 _) as [Hlt|_]; [| done].
    unfold Rdiv in Hlt. rewrite Rmult_0_l in Hlt. lra.
  - intros p -> Hp Hd. simpl.
    assert (size p ≠ 0) as Hs by (by rewrite map_size_empty_iff).
    assert (size (documents st) ≠ 0) as Hn by (by rewrite map_size_empty_iff).
    rewrite float_div_ret by (by apply not_0_INR). cbn [bind ret].
    rewrite math_log_ret; [done |].
    apply Rdiv_lt_0_compat; apply lt_0_INR; lia.
Qed.

(** ** The query vector *)

(** X9: in every reachable state [calculate_tf_idf_for_query] returns one
    coordinate per query term, in the order of the query: the number of
    occurrences of the term in the query divided by the length of the
    query, times the IDF of the term; every coordinate is positive, and the
    empty query gives the empty vector. *)
Theorem query_vector_is_tf_times_idf st q :
  reachable st →
  ∃ v, calculate_tf_idf_for_query st q = ret v ∧
       length v = length q ∧
       (∀ i t, q !! i = Some t →
          ∃ idf, _calculate_term_idf st t = ret idf ∧
                 v !! i = Some (INR (occurrences t q) / INR (length q) * idf)%R) ∧
       Forall (λ x, (0 < x)%R) v ∧
       (q = [] → v = []).
Proof.
  intros Hr. pose proof (reachable_consistent st Hr) as Hc.
  exists (map (query_weight st q) q).
  split; [by apply calculate_tf_idf_for_query_value |].
  split; [by rewrite length_map |]. split; [| split].
  - intros i t Hi. exists (idf_value st t).
    split; [by apply calculate_term_idf_value |].
    rewrite list_lookup_fmap, Hi. done.
  - apply Forall_forall. intros x Hx.
    apply list_elem_of_fmap in Hx as (t & -> & Ht). by apply query_weight_pos.
  - by intros ->.
Qed.

Lemma query_vector_is_tf_times_idf_witness :
  ∃ v, calculate_tf_idf_for_query corpus ["dog"; "zebra"; "dog"] = ret v ∧
       length v = 3 ∧ Forall (λ x, (0 < x)%R) v.
Proof.
  destruct (query_vector_is_tf_times_idf corpus ["dog"; "zebra"; "dog"]
              corpus_reachable) as (v & Hv & Hlen & _ & Hpos & _).
  exists v. split; [exact Hv |]. split; [exact Hlen | exact Hpos].
Defined.

(** ** Queries without any indexed term *)

Lemma idf_mapping_unknown st q acc :
  (∀ t, t ∈ q → inverted_index st !! t = None) →
  ∃ m, idf_mapping st q acc = ret m.
Proof.
  revert acc. induction q as [|x q IH]; intros acc Hq; cbn [idf_mapping].
  - by eexists.
  - unfold _calculate_term_idf. rewrite (Hq x) by (by left). cbn [bind ret].
    apply IH. intros t Ht. apply Hq. by right.
Qed.

Lemma query_vector_unknown st q :
  (∀ t, t ∈ q → inverted_index st !! t = None) →
  ∃ v, calculate_tf_idf_for_query st q = ret v.
Proof.
  intros Hq. unfold calculate_tf_idf_for_query. apply for_each_total.
  intros x Hx. unfold getitem.
  rewrite query_term_frequencies_lookup, lookup_empty.
  rewrite decide_False by (by apply occurrences_pos).
  cbn [bind ret default]. rewrite float_div_ret.
  - cbn [bind ret]. unfold _calculate_term_idf. rewrite (Hq x Hx). by eexists.
  - apply not_0_INR. destruct q; [inversion Hx | done].
Qed.

(** X10: on any engine value, a query none of whose terms is a key of the
    index (the empty query among them) raises nothing and returns the empty
    list, whatever the number of results asked for; so does
    [free_text_query] when the tokenizer leaves no indexed term. *)
Theorem query_without_indexed_terms_returns_nothing
    (tokenize smart_tokenize : string → list string) st :
  (∀ q k, (∀ t, t ∈ q → inverted_index st !! t = None) →
          query_by_terms st q k = ret []) ∧
  (∀ txt k (smart : bool),
     (∀ t, t ∈ (if smart then smart_tokenize txt else tokenize txt) →
           inverted_index st !! t = None) →
     free_text_query tokenize smart_tokenize st txt k smart = ret []).
Proof.
  assert (∀ q k, (∀ t, t ∈ q → inverted_index st !! t = None) →
                 query_by_terms st q k = ret []) as Hq.
  { intros q k Hnone. unfold query_by_terms, scored_documents.
    destruct (query_vector_unknown st q Hnone) as [v ->].
    destruct (idf_mapping_unknown st q ∅ Hnone) as [m ->]. cbn [bind ret].
    assert (_get_relevant_doc_ids st q = ∅) as ->.
    { apply set_eq. intros id. rewrite elem_of_relevant_doc_ids. split.
      - intros (t & Ht & Hid).
        by rewrite (postings_unknown _ _ (Hnone t Ht)), dom_empty_L in Hid.
      - set_solver. }
    rewrite elements_empty. cbn [for_each bind ret].
    by rewrite returned_results_nil. }
  split; [exact Hq |].
  intros txt k smart Hnone. unfold free_text_query. by apply Hq.
Qed.

(** ** How many results, and which *)

(** X11: in every reachable state a query returns, for a non-negative
    [num_of_results] [k], exactly [min k c] results, [c] being the number of
    candidate documents; for a negative [k] it returns [c + 2k] results (none
    when that is negative), since the list is sliced twice from the end. *)
Theorem number_of_results st q k :
  reachable st →
  ∃ res, query_by_terms st q k = ret res ∧
         ((0 ≤ k)%Z →
          length res = Z.to_nat k `min` size (_get_relevant_doc_ids st q)) ∧
         ((k < 0)%Z →
          length res
          = Z.to_nat (Z.of_nat (size (_get_relevant_doc_ids st q)) + 2 * k)).
Proof.
  intros Hr. pose proof (reachable_consistent st Hr) as Hc.
  destruct (query_by_terms_length st q k Hc) as (res & Hres & Hlen).
  exists res. split; [done |]. split; intros Hk.
  - assert ((k <? 0)%Z = false) as Hk' by (by apply Z.ltb_ge). by rewrite Hk' in Hlen.
  - assert ((k <? 0)%Z = true) as Hk' by (by apply Z.ltb_lt). by rewrite Hk' in Hlen.
Qed.

Lemma number_of_results_witness :
  ∃ res, query_by_terms corpus3 ["dog"; "cat"] 2 = ret res ∧ length res = 2.
Proof.
  destruct (number_of_results corpus3 ["dog"; "cat"] 2 corpus3_reachable)
    as (res & Hres & Hlen & _).
  exists res. split; [exact Hres |]. rewrite Hlen by lia. vm_compute. reflexivity.
Defined.

(** X12: in every reachable state the results kept by a query are the best
    ones: the scored candidates split into the kept pairs, whose texts are
    returned in this order, and the dropped ones, and no dropped candidate
    has a higher similarity than a kept one. *)
Theorem kept_results_are_the_best st q k :
  reachable st →
  ∃ results kept dropped,
    scored_documents st q = ret results ∧
    query_by_terms st q k = ret (map (λ r, PyStr (text r.1)) kept) ∧
    kept ++ dropped ≡ₚ results ∧
    ∀ a b, a ∈ kept → b ∈ dropped → (b.2 <= a.2)%R.
Proof.
  intros Hr. pose proof (reachable_consistent st Hr) as Hc.
  destruct (query_by_terms_value st q k Hc) as (results & Hs & _ & Hq).
  destruct (returned_results_take results k) as [m Hm].
  exists results, (take m (sorted_by_score results)),
         (drop m (sorted_by_score results)).
  split; [done |]. split; [by rewrite <- Hm |]. split.
  - rewrite take_drop. apply sorted_by_score_perm.
  - intros a b Ha Hb.
    pose proof (sorted_by_score_descending results) as Hd. unfold descending in Hd.
    rewrite <- (take_drop m (sorted_by_score results)) in Hd.
    by apply (StronglySorted_app_1_elem_of _ _ _ a b Hd).
Qed.

Lemma kept_results_are_the_best_witness :
  ∃ results kept dropped,
    scored_documents corpus3 ["dog"; "fish"] = ret results ∧
    query_by_terms corpus3 ["dog"; "fish"] 1
    = ret (map (λ r, PyStr (text r.1)) kept) ∧
    kept ++ dropped ≡ₚ results ∧
    ∀ a b, a ∈ kept → b ∈ dropped → (b.2 <= a.2)%R.
Proof.
  apply (kept_results_are_the_best corpus3 ["dog"; "fish"] 1).
  apply corpus3_reachable.
Defined.

(** ** Similarity values *)





(** ** The order of the query terms *)

Lemma relevant_doc_ids_same_terms st (q q' : list string) :
  (∀ t, t ∈ q ↔ t ∈ q') →
  _get_relevant_doc_ids st q = _get_relevant_doc_ids st q'.
Proof.
  intros Hq. apply set_eq. intros id. rewrite !elem_of_relevant_doc_ids.
  split; intros (t & Ht & Hid); exists t; (split; [by apply Hq | done]).
Qed.

Lemma scored_documents_fst st q ids results :
  index_consistent st →
  Forall2 (λ id r, documents st !! id = Some r.1
                   ∧ r.2 = cosine_similarity st q r.1) ids results →
  Forall2 (λ id d, documents st !! id = Some d) ids (map fst results).
Proof.
  intros Hc HF. induction HF as [|id r ids rs [Hd _] _ IH]; cbn [map].
  - constructor.
  - by constructor.
Qed.

(** X15: which documents a query scores depends on the set of its terms
    only, not on their order nor on repetitions: on any engine value two
    queries with the same terms have the same candidate set, and in every
    reachable state they score the same documents.  (The scores themselves
    are not compared.) *)
Theorem scored_documents_depend_on_the_term_set st (q q' : list string) :
  (∀ t, t ∈ q ↔ t ∈ q') →
  _get_relevant_doc_ids st q = _get_relevant_doc_ids st q' ∧
  (reachable st →
   ∃ r1 r2, scored_documents st q = ret r1 ∧
            scored_documents st q' = ret r2 ∧
            map fst r1 ≡ₚ map fst r2).
Proof.
  intros Hq. pose proof (relevant_doc_ids_same_terms st q q' Hq) as Hrel.
  split; [done |]. intros Hr. pose proof (reachable_consistent st Hr) as Hc.
  destruct (scored_documents_value st Hc q) as (r1 & Hs1 & H1).
  destruct (scored_documents_value st Hc q') as (r2 & Hs2 & H2).
  exists r1, r2. split; [done |]. split; [done |].
  rewrite <- Hrel in H2.
  apply scored_documents_fst in H1; [|done].
  apply scored_documents_fst in H2; [|done].
  assert (map fst r1 = map fst r2) as ->; [| done].
  revert H2. generalize (map fst r2).
  induction H1 as [|id d1 ids ds1 Hd1 _ IH]; intros ds2 H2.
  - by inversion H2.
  - inversion H2 as [|? d2 ? ds2' Hd2 Hrest]; subst.
    rewrite (IH ds2' Hrest). f_equal. congruence.
Qed.

Lemma scored_documents_depend_on_the_term_set_witness :
  _get_relevant_doc_ids corpus ["dog"; "fish"]
  = _get_relevant_doc_ids corpus ["fish"; "dog"; "fish"].
Proof.
  apply (scored_documents_depend_on_the_term_set
           corpus ["dog"; "fish"] ["fish"; "dog"; "fish"]).
  intros t. set_solver.
Defined.

(** ** Candidate sets *)

Lemma relevant_doc_ids_app st q1 q2 :
  _get_relevant_doc_ids st (q1 ++ q2)
  = _get_relevant_doc_ids st q1 ∪ _get_relevant_doc_ids st q2.
Proof.
  apply set_eq. intros id.
  rewrite elem_of_union, !elem_of_relevant_doc_ids. split.
  - intros (t & Ht & Hid). apply elem_of_app in Ht as [Ht|Ht]; eauto.
  - intros [(t & Ht & Hid)|(t & Ht & Hid)]; exists t;
      (split; [apply elem_of_app; auto | done]).
Qed.

(** X16: on any engine value, the candidates of a query are put together
    term by term: the candidate set of two term lists joined is the union of
    their candidate sets, and a candidate of a query stays one after any
    further [add_document]. *)
Theorem candidates_compose_and_persist st q1 q2 d :
  _get_relevant_doc_ids st (q1 ++ q2)
  = _get_relevant_doc_ids st q1 ∪ _get_relevant_doc_ids st q2 ∧
  _get_relevant_doc_ids st q1
  ⊆ _get_relevant_doc_ids (engine_after (add_document st d)) q1.
Proof.
  split; [apply relevant_doc_ids_app |].
  intros id. rewrite !elem_of_relevant_doc_ids.
  intros (t & Ht & Hid). exists t. split; [done |].
  destruct (documents st !! doc_id d) as [d0|] eqn:Hd.
  - by rewrite add_document_duplicate by eauto.
  - rewrite add_document_fresh by done.
    apply elem_of_dom in Hid as [n Hn]. apply elem_of_dom.
    rewrite <- entry_postings in *. simpl.
    rewrite update_inverted_index_entry, Hn. case_decide; eauto.
Qed.

(** ** Indexing a document twice *)

(** X17: [update_inverted_index] is not idempotent: run a second time for
    the same document it counts every occurrence again, so a term that the
    document holds [n] times ends with the count [2 n].  The id test of
    [add_document] is what keeps a document from being counted twice. *)
Theorem indexing_twice_doubles_the_counts index d t :
  occurrences t (terms d) ≠ 0 →
  entry index t (doc_id d) = None →
  entry (update_inverted_index index d) t (doc_id d)
  = Some (occurrences t (terms d)) ∧
  entry (update_inverted_index (update_inverted_index index d) d) t (doc_id d)
  = Some (2 * occurrences t (terms d)).
Proof.
  intros Hocc Hnone.
  rewrite !update_inverted_index_entry, Hnone.
  rewrite !decide_True by done. simpl. split; [done |]. f_equal. lia.
Qed.

Lemma indexing_twice_doubles_the_counts_witness :
  entry (update_inverted_index (update_inverted_index ∅ doc2) doc2) "dog" "d2"
  = Some 4.
Proof.
  apply (indexing_twice_doubles_the_counts ∅ doc2 "dog").
  - vm_compute. lia.
  - reflexivity.
Defined.
